(** * Accuracy scoring of the medical-coder backend (src/index.js)

    A shallow embedding of [calculateAccuracy], of the list-field
    normalisation inside [extractCodesFromText] and of the
    [/submit-corrections] handler, together with the properties the
    specification states about them; then of the helpers around them:
    the S3 configuration, [getS3PublicUrl] and [buildS3Response], the
    file-name functions [getMimeType] and [getExtension], the upload
    functions and [extractDateOfService], with properties read off the
    code.

    JavaScript values are modelled as far as the code observes them:
    primitives, arrays of strings and objects carrying the five coding
    properties.  The scalar properties hold primitives and the arrays
    hold strings, so that [===] and [includes] are equality of values
    (between two arrays or objects they would compare references).
    The two counters are natural numbers; the percentage is computed
    on IEEE binary64 values (Rocq's primitive floats), as the
    JavaScript runtime does. *)

From Stdlib Require Import ZArith Floats Uint63 Ascii String.
From stdpp Require Import base decidable list strings gmap pretty.

Set Warnings "-inexact-float".
Open Scope string_scope.

(** ** JavaScript values *)

(** Primitive values.  A number is an integer-valued JSON number (no
    NaN can come out of [JSON.parse], and [-0 === 0]). *)
Inductive JsPrim : Type :=
| JsUndefined
| JsNull
| JsBoolean (b : bool)
| JsNumber (n : Z)
| JsString (s : string).

#[global] Instance JsPrim_eq_dec : EqDecision JsPrim.
Proof. solve_decision. Defined.

(** The value of a property of a coding object: a primitive or an
    array of strings. *)
Inductive JsField : Type :=
| FPrim (p : JsPrim)
| FArray (l : list string).

(** A coding object is read through five properties only; a property
    the object does not have reads as [undefined].  The three scalar
    properties hold primitives. *)
Record CodesObject : Type := mkCodes {
  admit_dx : JsPrim;
  pdx : JsPrim;
  sdx : JsField;
  cpt : JsField;
  modifier : JsPrim
}.

Inductive JsValue : Type :=
| VField (f : JsField)
| VObject (o : CodesObject).

Abbreviation VPrim p := (VField (FPrim p)).
Abbreviation VUndefined := (VField (FPrim JsUndefined)).
Abbreviation VNull := (VField (FPrim JsNull)).

(** [ToBoolean]: the falsy primitives are [undefined], [null], [false],
    [0] and the empty string; arrays and objects are truthy. *)
Definition truthy (p : JsPrim) : bool :=
  match p with
  | JsUndefined | JsNull => false
  | JsBoolean b => b
  | JsNumber n => negb (n =? 0)%Z
  | JsString s => negb (String.eqb s "")
  end.

Definition field_truthy (f : JsField) : bool :=
  match f with
  | FPrim p => truthy p
  | FArray _ => true
  end.

Definition value_truthy (v : JsValue) : bool :=
  match v with
  | VField f => field_truthy f
  | VObject _ => true
  end.

(** [!v] *)
Definition missing (v : JsValue) : bool := negb (value_truthy v).

(** [v] is [undefined] or [null]. *)
Definition nullish (v : JsValue) : bool :=
  match v with
  | VField (FPrim JsUndefined) | VField (FPrim JsNull) => true
  | _ => false
  end.

(** [a || b] *)
Definition js_or (a b : JsPrim) : JsPrim := if truthy a then a else b.

(** [a === b] on primitives *)
Definition strict_eq (a b : JsPrim) : bool := bool_decide (a = b).

(** [Array.isArray(v) ? v : []] *)
Definition array_or_empty (f : JsField) : list string :=
  match f with
  | FArray l => l
  | FPrim _ => []
  end.

(** The TypeError of a property read on [undefined] or [null]. *)
Inductive JsError : Type :=
| TypeError (base : JsPrim) (property : string).

Inductive Completion (A : Type) : Type :=
| Normal (a : A)
| Throw (e : JsError).
Arguments Normal {A} a.
Arguments Throw {A} e.

#[global] Instance Completion_ret : MRet Completion := λ A a, Normal a.
#[global] Instance Completion_bind : MBind Completion := λ A B k c,
  match c with
  | Normal a => k a
  | Throw e => Throw e
  end.

Definition no_properties : CodesObject :=
  mkCodes JsUndefined JsUndefined (FPrim JsUndefined) (FPrim JsUndefined) JsUndefined.

(** The object view of a value at its first property read, here
    [.admit_dx]: the read throws a TypeError when the value is
    [undefined] or [null]; on any other primitive and on an array the
    five coding properties read as [undefined]. *)
Definition properties (v : JsValue) : Completion CodesObject :=
  match v with
  | VObject o => Normal o
  | VField (FPrim JsUndefined) => Throw (TypeError JsUndefined "admit_dx")
  | VField (FPrim JsNull) => Throw (TypeError JsNull "admit_dx")
  | VField _ => Normal no_properties
  end.

(** ** Numbers *)

(** A counter as a binary64 value (exact below 2^53). *)
Definition of_nat (n : nat) : float := PrimFloat.of_uint63 (Uint63.of_Z (Z.of_nat n)).

(** [Math.round]: the integer nearest to [x], a tie going towards
    [+∞]; zeros, infinities and NaN are returned as they are, and a
    negative [x] that rounds to zero gives [-0].  A finite [x] is
    [±m * 2^e]; with [e < 0] the result is [floor (x + 1/2)], computed
    on integers. *)
Definition Math_round (x : float) : float :=
  match Prim2SF x with
  | S754_finite s m e =>
      if (0 <=? e)%Z then x
      else
        let v := if s then Z.neg m else Z.pos m in
        let k := (- e)%Z in
        let n := ((v + 2 ^ (k - 1)) / 2 ^ k)%Z in
        if (n =? 0)%Z then (if s then (-0)%float else 0%float)
        else if (n <? 0)%Z then (- PrimFloat.of_uint63 (Uint63.of_Z (- n)))%float
        else PrimFloat.of_uint63 (Uint63.of_Z n)
  | _ => x
  end.

(** ** The accuracy engine: [calculateAccuracy] *)

(** [{ ai, user, match }] of a scalar field. *)
Record FieldComparison : Type := mkField {
  fc_ai : JsPrim;
  fc_user : JsPrim;
  fc_match : bool
}.

(** [{ ai, user, matches, additions, removals }] of a list field. *)
Record SetComparison : Type := mkSet {
  sc_ai : list string;
  sc_user : list string;
  sc_matches : list string;
  sc_additions : list string;
  sc_removals : list string
}.

Record Details : Type := mkDetails {
  d_admit_dx : FieldComparison;
  d_pdx : FieldComparison;
  d_sdx : SetComparison;
  d_cpt : SetComparison;
  d_modifier : FieldComparison
}.

(** The local variables of [calculateAccuracy]. *)
Record Locals : Type := mkLocals {
  l_details : Details;
  totalFields : nat;
  correctFields : nat
}.

(** [{ percentage, details }] *)
Record AccuracyResult : Type := mkResult {
  percentage : float;
  details : Details
}.

(** [new Set(xs).size] *)
Definition Set_size (xs : list string) : nat :=
  size (list_to_set xs : gset string).

(** [details.f.match = true] *)
Definition set_match (c : FieldComparison) : FieldComparison :=
  mkField (fc_ai c) (fc_user c) true.

Definition empty_set_comparison : SetComparison := mkSet [] [] [] [] [].

(** Lines 273-282: the [details] literal and the two counters. *)
Definition initial_locals (aiCodes userCodes : CodesObject) : Locals :=
  {| l_details :=
       {| d_admit_dx := mkField (js_or (admit_dx aiCodes) (JsString ""))
                                (js_or (admit_dx userCodes) (JsString "")) false;
          d_pdx := mkField (js_or (pdx aiCodes) (JsString ""))
                           (js_or (pdx userCodes) (JsString "")) false;
          d_sdx := empty_set_comparison;
          d_cpt := empty_set_comparison;
          d_modifier := mkField (js_or (modifier aiCodes) (JsString ""))
                                (js_or (modifier userCodes) (JsString "")) false |};
     totalFields := 0;
     correctFields := 0 |}.

(** One of the three scalar blocks (lines 284-306), for the values [a]
    and [u] of the field and the update [upd] of its entry in
    [details]. *)
Definition scalar_block (a u : JsPrim) (upd : Details → Details) (st : Locals) : Locals :=
  if truthy (js_or a u) then
    let total := S (totalFields st) in
    if strict_eq (js_or a (JsString "")) (js_or u (JsString "")) then
      mkLocals (upd (l_details st)) total (S (correctFields st))
    else mkLocals (l_details st) total (correctFields st)
  else st.

Definition admit_dx_block (aiCodes userCodes : CodesObject) : Locals → Locals :=
  scalar_block (admit_dx aiCodes) (admit_dx userCodes)
    (λ d, mkDetails (set_match (d_admit_dx d)) (d_pdx d) (d_sdx d) (d_cpt d) (d_modifier d)).

Definition pdx_block (aiCodes userCodes : CodesObject) : Locals → Locals :=
  scalar_block (pdx aiCodes) (pdx userCodes)
    (λ d, mkDetails (d_admit_dx d) (set_match (d_pdx d)) (d_sdx d) (d_cpt d) (d_modifier d)).

Definition modifier_block (aiCodes userCodes : CodesObject) : Locals → Locals :=
  scalar_block (modifier aiCodes) (modifier userCodes)
    (λ d, mkDetails (d_admit_dx d) (d_pdx d) (d_sdx d) (d_cpt d) (set_match (d_modifier d))).

(** The comparison of a list field (lines 310-314 and 324-328);
    [xs.includes(code)] is [code ∈ xs]. *)
Definition compare_lists (aiList userList : list string) : SetComparison :=
  {| sc_ai := aiList;
     sc_user := userList;
     sc_matches := filter (λ code, code ∈ userList) aiList;
     sc_additions := filter (λ code, code ∉ aiList) userList;
     sc_removals := filter (λ code, code ∉ userList) aiList |}.

(** One of the two list blocks (lines 308-334), for the values [a] and
    [u] of the field and the update [upd] of its entry in [details]. *)
Definition list_block (a u : JsField) (upd : SetComparison → Details → Details)
    (st : Locals) : Locals :=
  let aiList := array_or_empty a in
  let userList := array_or_empty u in
  let cmp := compare_lists aiList userList in
  let d := upd cmp (l_details st) in
  if (0 <? length aiList)%nat || (0 <? length userList)%nat then
    mkLocals d (totalFields st + Set_size (aiList ++ userList))
               (correctFields st + length (sc_matches cmp))
  else mkLocals d (totalFields st) (correctFields st).

Definition sdx_block (aiCodes userCodes : CodesObject) : Locals → Locals :=
  list_block (sdx aiCodes) (sdx userCodes)
    (λ c d, mkDetails (d_admit_dx d) (d_pdx d) c (d_cpt d) (d_modifier d)).

Definition cpt_block (aiCodes userCodes : CodesObject) : Locals → Locals :=
  list_block (cpt aiCodes) (cpt userCodes)
    (λ c d, mkDetails (d_admit_dx d) (d_pdx d) (d_sdx d) c (d_modifier d)).

(** The locals after each block, in the order of the source. *)
Definition after_admit_dx (aiCodes userCodes : CodesObject) : Locals :=
  admit_dx_block aiCodes userCodes (initial_locals aiCodes userCodes).
Definition after_pdx (aiCodes userCodes : CodesObject) : Locals :=
  pdx_block aiCodes userCodes (after_admit_dx aiCodes userCodes).
Definition after_modifier (aiCodes userCodes : CodesObject) : Locals :=
  modifier_block aiCodes userCodes (after_pdx aiCodes userCodes).
Definition after_sdx (aiCodes userCodes : CodesObject) : Locals :=
  sdx_block aiCodes userCodes (after_modifier aiCodes userCodes).
Definition after_cpt (aiCodes userCodes : CodesObject) : Locals :=
  cpt_block aiCodes userCodes (after_sdx aiCodes userCodes).

(** Lines 336-337. *)
Definition accuracy (total correct : nat) : float :=
  if (0 <? total)%nat then (of_nat correct / of_nat total * 100)%float else 100%float.

Definition result_of (st : Locals) : AccuracyResult :=
  {| percentage := (Math_round (accuracy (totalFields st) (correctFields st) * 100) / 100)%float;
     details := l_details st |}.

Definition calculateAccuracy_object (aiCodes userCodes : CodesObject) : AccuracyResult :=
  result_of (after_cpt aiCodes userCodes).

(** [calculateAccuracy(aiCodes, userCodes)]: the first statement reads
    [aiCodes.admit_dx], then [userCodes.admit_dx]. *)
Definition calculateAccuracy (aiCodes userCodes : JsValue) : Completion AccuracyResult :=
  ai ← properties aiCodes;
  user ← properties userCodes;
  mret (calculateAccuracy_object ai user).

(** ** Coding results *)

(** The shape [extractCodesFromText] returns and the specification
    calls a CodingResult: three strings and two arrays of strings, the
    empty string and the empty array standing for an absent code. *)
Module CodingResult.

Record t : Type := mk {
  admit_dx : string;
  pdx : string;
  sdx : list string;
  cpt : list string;
  modifier : string
}.

Definition empty : t := mk "" "" [] [] "".

Definition to_object (r : t) : CodesObject :=
  mkCodes (JsString (admit_dx r)) (JsString (pdx r))
          (FArray (sdx r)) (FArray (cpt r)) (JsString (modifier r)).

Definition to_js (r : t) : JsValue := VObject (to_object r).

End CodingResult.

(** ** List-field normalisation in [extractCodesFromText] *)

(** Strings are sequences of code units below 256; of these, the ones
    [String.prototype.trim] removes are TAB, LF, VT, FF, CR, SPACE and
    NO-BREAK SPACE. *)
Definition is_whitespace (c : ascii) : bool :=
  match Ascii.N_of_ascii c with
  | 9 | 10 | 11 | 12 | 13 | 32 | 160 => true
  | _ => false
  end%N.

Fixpoint trimStart (s : string) : string :=
  match s with
  | String c s' => if is_whitespace c then trimStart s' else s
  | EmptyString => EmptyString
  end.

Fixpoint trimEnd (s : string) : string :=
  match s with
  | String c s' =>
      match trimEnd s' with
      | EmptyString => if is_whitespace c then EmptyString else String c EmptyString
      | r => String c r
      end
  | EmptyString => EmptyString
  end.

(** [s.trim()] *)
Definition trim (s : string) : string := trimEnd (trimStart s).

(** [s.split(sep)] for a separator of one character: the pieces between
    the occurrences of [sep], the empty string giving one empty piece. *)
Fixpoint split (sep : ascii) (s : string) : list string :=
  match s with
  | EmptyString => [EmptyString]
  | String c s' =>
      if Ascii.eqb c sep then EmptyString :: split sep s'
      else match split sep s' with
           | p :: ps => String c p :: ps
           | [] => [String c EmptyString]
           end
  end.

(** [parts.join(sep)] *)
Fixpoint join (sep : ascii) (parts : list string) : string :=
  match parts with
  | [] => EmptyString
  | [p] => p
  | p :: ps => p +:+ String sep (join sep ps)
  end.

Definition comma : ascii := ","%char.

(** Lines 911-914, for one list field of the parsed model answer:
    [let v = result.f || [];
     if (typeof v === 'string') v = v.split(',').map(s => s.trim()).filter(Boolean);] *)
Definition normalize_list_field (f : JsField) : JsField :=
  let v := if field_truthy f then f else FArray [] in
  match v with
  | FPrim (JsString s) =>
      FArray (filter (λ p, truthy (JsString p)) (map trim (split comma s)))
  | _ => v
  end.

(** ** The [/submit-corrections] handler *)

(** The properties of [req.body] the handler destructures. *)
Record Body : Type := mkBody {
  document_key : JsValue;
  chart_number : JsValue;
  original : JsValue;
  corrected : JsValue;
  edit_reasons : JsValue;
  remarks : JsValue
}.

Inductive Response : Type :=
| Refused (error : string)
| Failed (error : JsError)
| Accepted (document_key chart_number : JsValue) (accuracy : AccuracyResult).

(** What the handler does, in order: calls of the engine, the UPDATE
    sent to the database (its failure is caught and logged, and changes
    nothing below) and the response with its status. *)
Inductive Event : Type :=
| EngineCall (aiCodes userCodes : JsValue)
| DbUpdate (document_key corrected edit_reasons remarks : JsValue) (accuracy : AccuracyResult)
| Respond (status : nat) (r : Response).

Definition submit_corrections (body : Body) : list Event :=
  if missing (document_key body) || missing (corrected body) then
    [Respond 400 (Refused "document_key and corrected data are required")]
  else
    EngineCall (original body) (corrected body) ::
    match calculateAccuracy (original body) (corrected body) with
    | Throw e => [Respond 500 (Failed e)]
    | Normal accuracyResult =>
        [DbUpdate (document_key body) (corrected body) (edit_reasons body) (remarks body)
                  accuracyResult;
         Respond 200 (Accepted (document_key body) (chart_number body) accuracyResult)]
    end.

Definition engine_calls (trace : list Event) : list (JsValue * JsValue) :=
  omap (λ e, match e with EngineCall a u => Some (a, u) | _ => None end) trace.

(** ** What the specification says of a scalar field

    [scalar_field_scored a u before after flag]: the scoring of a
    scalar field whose AI value is [a] and whose user value is [u],
    between the locals [before] and [after] its block, with the match
    flag [flag] recorded in the report. *)
Definition scalar_field_scored (a u : string) (before after : Locals) (flag : bool) : Prop :=
  (a = "" ∧ u = "" →
     totalFields after = totalFields before ∧
     correctFields after = correctFields before ∧
     flag = false) ∧
  (a ≠ "" ∨ u ≠ "" →
     totalFields after = S (totalFields before) ∧
     (a = u → correctFields after = S (correctFields before) ∧ flag = true) ∧
     (a ≠ u → correctFields after = correctFields before ∧ flag = false)).

(** The match flag of a scalar field as the data model words it: true
    iff both values are present and identical, or both are absent. *)
Definition match_flag_as_stated (a u : string) (flag : bool) : Prop :=
  flag = true ↔ (a ≠ "" ∧ u ≠ "" ∧ a = u) ∨ (a = "" ∧ u = "").

(** The match flag the engine records: true iff both values are
    present and identical. *)
Definition match_flag_recorded (a u : string) (flag : bool) : Prop :=
  flag = true ↔ (a ≠ "" ∧ u ≠ "" ∧ a = u).

(** ** What the specification says of a list field

    The cardinality of the union and of the intersection of two
    sequences taken as sets, duplicates collapsed. *)
Definition union_cardinality (a u : list string) : nat :=
  size ((list_to_set a : gset string) ∪ list_to_set u).

Definition intersection_cardinality (a u : list string) : nat :=
  size ((list_to_set a : gset string) ∩ list_to_set u).

(** What a scalar field adds to the denominator and to the numerator. *)
Definition scalar_denominator (a u : string) : nat :=
  if bool_decide (a = "" ∧ u = "") then 0 else 1.

Definition scalar_numerator (a u : string) : nat :=
  if bool_decide (a = "" ∧ u = "") then 0 else if bool_decide (a = u) then 1 else 0.

(** The comparison of a list field as the data model words it: each of
    the three lists holds the codes named, in the order of the
    sequence they are taken from. *)
Definition set_comparison_as_stated (a u : list string) (c : SetComparison) : Prop :=
  sc_ai c = a ∧ sc_user c = u ∧
  (sc_matches c `sublist_of` a ∧ ∀ x, x ∈ sc_matches c ↔ x ∈ a ∧ x ∈ u) ∧
  (sc_additions c `sublist_of` u ∧ ∀ x, x ∈ sc_additions c ↔ x ∈ u ∧ x ∉ a) ∧
  (sc_removals c `sublist_of` a ∧ ∀ x, x ∈ sc_removals c ↔ x ∈ a ∧ x ∉ u).

(** ** What the specification says of trimming

    [is_trim_of p t]: [t] is [p] without the whitespace at its two
    ends. *)
Definition whitespace_only (s : string) : Prop :=
  ∀ c, c ∈ list_ascii_of_string s → is_whitespace c = true.

Definition trimmed (t : string) : Prop :=
  (∀ c t', t = String c t' → is_whitespace c = false) ∧
  (∀ c t', t = t' +:+ String c "" → is_whitespace c = false).

Definition is_trim_of (p t : string) : Prop :=
  ∃ l r, p = l +:+ t +:+ r ∧ whitespace_only l ∧ whitespace_only r ∧ trimmed t.

(** ** S3 configuration and public URLs *)

(** The environment variables of the S3 configuration; a variable
    that is not set is [None]. *)
Record Env : Type := mkEnv {
  S3_ENDPOINT_URL : option string;
  S3_BUCKET_NAME : option string;
  S3_ACCESS_KEY : option string;
  S3_SECRET_KEY : option string
}.

(** [ToBoolean] of a string and of a string or [null]. *)
Definition nonempty (s : string) : bool := negb (String.eqb s "").

Definition key_truthy (key : option string) : bool :=
  match key with
  | Some k => nonempty k
  | None => false
  end.

(** [s.replace(/\/$/, '')]: [s] without its last character when that
    is a slash. *)
Fixpoint strip_trailing_slash (s : string) : string :=
  match s with
  | EmptyString => EmptyString
  | String c s' =>
      match s' with
      | EmptyString => if Ascii.eqb c "/" then EmptyString else s
      | String _ _ => String c (strip_trailing_slash s')
      end
  end.

(** [process.env.S3_BUCKET_NAME || 'medextract'] *)
Definition S3_BUCKET (env : Env) : string :=
  match S3_BUCKET_NAME env with
  | Some b => if nonempty b then b else "medextract"
  | None => "medextract"
  end.

(** [process.env.S3_ENDPOINT_URL
       ? process.env.S3_ENDPOINT_URL.replace(/\/$/, '') : null] *)
Definition S3_ENDPOINT (env : Env) : option string :=
  match S3_ENDPOINT_URL env with
  | Some e => if nonempty e then Some (strip_trailing_slash e) else None
  | None => None
  end.

(** [getS3PublicUrl(key)] for a key that is a string or [null]. *)
Definition getS3PublicUrl (env : Env) (key : option string) : option string :=
  match key with
  | Some k =>
      if nonempty k then
        if key_truthy (S3_ENDPOINT env) then
          match S3_ENDPOINT env with
          | Some e => Some (e +:+ "/" +:+ S3_BUCKET env +:+ "/" +:+ k)
          | None => None
          end
        else None
      else None
  | None => None
  end.

(** The document keys handed to [buildS3Response]: an array of
    strings, or a single key that is a string or [null]. *)
Inductive DocKeys : Type :=
| KeysArray (keys : list string)
| KeysValue (key : option string).

(** [Array.isArray(k) ? k : (k ? [k] : [])] *)
Definition ensure_array (k : DocKeys) : list string :=
  match k with
  | KeysArray keys => keys
  | KeysValue (Some key) => if nonempty key then [key] else []
  | KeysValue None => []
  end.

(** [xs.filter(Boolean)] on strings and [null]s: the non-empty
    strings. *)
Definition filter_Boolean (xs : list (option string)) : list string :=
  omap (λ x, match x with
             | Some u => if nonempty u then Some u else None
             | None => None
             end) xs.

Record S3Response : Type := mkS3Response {
  s3_hp_doc_key : option string;
  s3_op_doc_key : option string;
  s3_hp_doc_keys : list string;
  s3_op_doc_keys : list string;
  s3_hp_summary_key : option string;
  s3_op_summary_key : option string;
  s3_hp_doc_url : option string;
  s3_op_doc_url : option string;
  s3_hp_doc_urls : list string;
  s3_op_doc_urls : list string;
  s3_hp_summary_url : option string;
  s3_op_summary_url : option string;
  s3_endpoint : option string;
  s3_bucket : string
}.

(** [buildS3Response(s3HpDocKeys, s3OpDocKeys, s3HpSummaryKey,
    s3OpSummaryKey)] *)
Definition buildS3Response (env : Env) (s3HpDocKeys s3OpDocKeys : DocKeys)
    (s3HpSummaryKey s3OpSummaryKey : option string) : S3Response :=
  let hpKeys := ensure_array s3HpDocKeys in
  let opKeys := ensure_array s3OpDocKeys in
  {| s3_hp_doc_key := head hpKeys;
     s3_op_doc_key := head opKeys;
     s3_hp_doc_keys := hpKeys;
     s3_op_doc_keys := opKeys;
     s3_hp_summary_key := s3HpSummaryKey;
     s3_op_summary_key := s3OpSummaryKey;
     s3_hp_doc_url := match hpKeys with key :: _ => getS3PublicUrl env (Some key) | [] => None end;
     s3_op_doc_url := match opKeys with key :: _ => getS3PublicUrl env (Some key) | [] => None end;
     s3_hp_doc_urls := filter_Boolean (map (λ key, getS3PublicUrl env (Some key)) hpKeys);
     s3_op_doc_urls := filter_Boolean (map (λ key, getS3PublicUrl env (Some key)) opKeys);
     s3_hp_summary_url := getS3PublicUrl env s3HpSummaryKey;
     s3_op_summary_url := getS3PublicUrl env s3OpSummaryKey;
     s3_endpoint := S3_ENDPOINT env;
     s3_bucket := S3_BUCKET env |}.

(** ** File names: [getMimeType] and [getExtension] *)

(** [toLowerCase] on code units below 256: the letters A-Z and the
    capital letters of Latin-1 (192-222 but the multiplication sign,
    215) move up by 32. *)
Definition toLowerCase_char (c : ascii) : ascii :=
  let n := Ascii.N_of_ascii c in
  if ((65 <=? n) && (n <=? 90) || (192 <=? n) && (n <=? 222) && negb (n =? 215))%N
  then Ascii.ascii_of_N (n + 32)
  else c.

Fixpoint toLowerCase (s : string) : string :=
  match s with
  | EmptyString => EmptyString
  | String c s' => String (toLowerCase_char c) (toLowerCase s')
  end.

(** [parts.pop()] of the array [s.split(sep)], which is never empty. *)
Definition pop (parts : list string) : string := List.last parts EmptyString.

Definition dot : ascii := "."%char.

(** ['.' + filename.split('.').pop().toLowerCase()] *)
Definition getExtension (filename : string) : string :=
  String dot (toLowerCase (pop (split dot filename))).

(** Upper and lower case, on code units below 256: the capital
    letters are A-Z (65-90) and those of Latin-1 (192-214 and
    216-222); the small letter of a capital has its code plus 32. *)
Definition is_upper (c : ascii) : bool :=
  let n := Ascii.N_of_ascii c in
  ((65 <=? n) && (n <=? 90) || (192 <=? n) && (n <=? 214) || (216 <=? n) && (n <=? 222))%N.

(** [d] is [c] in lower case. *)
Definition lower_of (c d : ascii) : Prop :=
  if is_upper c then Ascii.N_of_ascii d = (Ascii.N_of_ascii c + 32)%N else d = c.

(** [t] is [s] in lower case, character by character. *)
Definition lowered (s t : string) : Prop :=
  Forall2 lower_of (list_ascii_of_string s) (list_ascii_of_string t).

(** The names every object inherits from [Object.prototype]; a read
    of one of them on an object literal that does not define it gives
    a function (an object for [__proto__]), which is truthy. *)
Definition Object_prototype_names : list string :=
  ["constructor"; "__defineGetter__"; "__defineSetter__"; "hasOwnProperty";
   "__lookupGetter__"; "__lookupSetter__"; "isPrototypeOf"; "propertyIsEnumerable";
   "toString"; "valueOf"; "__proto__"; "toLocaleString"].

(** What a property read on an object literal of strings gives. *)
Inductive PropertyValue : Type :=
| OwnString (value : string)
| Inherited (name : string).

Fixpoint own_property (literal : list (string * string)) (name : string) : option string :=
  match literal with
  | [] => None
  | (k, v) :: rest => if String.eqb k name then Some v else own_property rest name
  end.

(** [literal[name] || fallback] *)
Definition get_or (literal : list (string * string)) (name : string) (fallback : string)
    : PropertyValue :=
  match own_property literal name with
  | Some v => if nonempty v then OwnString v else OwnString fallback
  | None =>
      if bool_decide (name ∈ Object_prototype_names) then Inherited name
      else OwnString fallback
  end.

Definition mimeTypes : list (string * string) :=
  [("jpg", "image/jpeg"); ("jpeg", "image/jpeg"); ("png", "image/png");
   ("gif", "image/gif"); ("webp", "image/webp"); ("pdf", "application/pdf")].

(** [getMimeType(filename)] *)
Definition getMimeType (filename : string) : PropertyValue :=
  let ext := pop (split dot (toLowerCase filename)) in
  get_or mimeTypes ext "application/octet-stream".

(** ** Uploads to S3 *)

(** [S3_ENABLED]: the endpoint and the two credentials are set and not
    empty; the client [s3Client] exists exactly then. *)
Definition S3_ENABLED (env : Env) : bool :=
  key_truthy (S3_ENDPOINT_URL env) && key_truthy (S3_ACCESS_KEY env) &&
  key_truthy (S3_SECRET_KEY env).

Definition S3_FOLDER : string := "medical-coder".

(** [uploadToS3(buffer, key, contentType)], [sent] telling whether the
    PUT of the object goes through: the full key, or [null]. *)
Definition uploadToS3 (env : Env) (sent : bool) (key : string) : option string :=
  if negb (S3_ENABLED env) then None
  else
    let fullKey := S3_FOLDER +:+ "/" +:+ key in
    if sent then Some fullKey else None.

(** An entry of [hp_files] or [op_files]: [{ raw, type, filename }],
    each a string or missing. *)
Record File : Type := mkFile {
  file_raw : option string;
  file_type : option string;
  file_filename : option string
}.

(** The name a value is read under as a property name. *)
Definition property_name (fileType : option string) : string :=
  match fileType with
  | Some t => t
  | None => "undefined"
  end.

Section Uploads.

(** What a template literal prints for a member inherited from
    [Object.prototype], which the engine decides. *)
Variable render_inherited : string → string.

Definition render (v : PropertyValue) : string :=
  match v with
  | OwnString s => s
  | Inherited name => render_inherited name
  end.

(** [index !== null ? `_${index + 1}` : ''] *)
Definition indexSuffix (index : option nat) : string :=
  match index with
  | Some i => "_" +:+ pretty (i + 1)%nat
  | None => EmptyString
  end.

(** The key [uploadRawFileToS3] builds (lines 119-127). *)
Definition raw_file_key (documentKey reportType : string) (fileType filename : option string)
    (index : option nat) : string :=
  let extensions :=
    [("pdf", ".pdf");
     ("image", if key_truthy filename then getExtension (default EmptyString filename)
               else ".jpg");
     ("text", ".txt")] in
  documentKey +:+ "/" +:+ reportType +:+ "_document" +:+ indexSuffix index +:+
  render (get_or extensions (property_name fileType) ".bin").

(** [uploadRawFileToS3(documentKey, reportType, rawData, fileType,
    filename, index)] for data, file type and file name that are
    strings or missing.  The body and the content type go into the PUT
    and have no part in the key returned. *)
Definition uploadRawFileToS3 (env : Env) (sent : bool) (documentKey reportType : string)
    (rawData fileType filename : option string) (index : option nat) : option string :=
  if key_truthy rawData then
    uploadToS3 env sent (raw_file_key documentKey reportType fileType filename index)
  else None.

(** [uploadMultipleFilesToS3(documentKey, reportType, files)], [sent i]
    telling whether the PUT of the file at index [i] goes through. *)
Definition uploadMultipleFilesToS3 (env : Env) (sent : nat → bool)
    (documentKey reportType : string) (files : option (list File)) : list string :=
  match files with
  | None | Some [] => []
  | Some files =>
      let results :=
        imap (λ index file,
                uploadRawFileToS3 env (sent index) documentKey reportType
                  (file_raw file) (file_type file) (file_filename file)
                  (if (1 <? length files)%nat then Some index else None))
             files in
      omap id results
  end.

(** [uploadSummaryToS3(documentKey, reportType, summary)] for a
    summary that is an object ([true]) or [null]. *)
Definition uploadSummaryToS3 (env : Env) (sent : bool) (documentKey reportType : string)
    (summary : bool) : option string :=
  if summary then uploadToS3 env sent (documentKey +:+ "/" +:+ reportType +:+ "_summary.json")
  else None.

(** *** The layout of a key, written out *)

(** The extension of a file in its key, by the type of the file:
    [.pdf] for [pdf], [.txt] for [text], for [image] the extension of
    the file name and [.jpg] without a file name; [.bin] without a
    type and for any other type, but for a type that names a member
    inherited from [Object.prototype], where it is what the engine
    prints for that member. *)
Definition expected_extension (file : File) : string :=
  match file_type file with
  | None => ".bin"
  | Some t =>
      if decide (t = "pdf") then ".pdf"
      else if decide (t = "image") then
        match file_filename file with
        | Some (String c name) => getExtension (String c name)
        | Some EmptyString | None => ".jpg"
        end
      else if decide (t = "text") then ".txt"
      else if decide (t ∈ Object_prototype_names) then render_inherited t
      else ".bin"
  end.

(** The position of a file among [count] files, counted from 1; a
    single file has none. *)
Definition position_suffix (count index : nat) : string :=
  if (1 <? count)%nat then "_" +:+ pretty (S index) else "".

Definition expected_key (documentKey reportType : string) (count index : nat) (file : File)
    : string :=
  "medical-coder/" +:+ documentKey +:+ "/" +:+ reportType +:+ "_document" +:+
  position_suffix count index +:+ expected_extension file.

(** The file carries data: [raw] is there and is not empty. *)
Definition has_data (file : File) : Prop :=
  ∃ data, file_raw file = Some data ∧ data ≠ "".

End Uploads.

(** ** The date of service: [extractDateOfService]

    The two patterns are
    [/Date of Service[:\s]+(\d{1,2}\/\d{1,2}\/\d{2,4})/i] and
    [/DOS[:\s]+(\d{1,2}\/\d{1,2}\/\d{2,4})/i].  The classes [[:\s]],
    [\d] and the slash share no character, so at a given start the
    greedy choice of each repetition is the only one that can
    succeed, and the matcher below makes it. *)

(** A character of the text against a character of a pattern with the
    flag [i]: a letter of the pattern matches itself in either
    case. *)
Definition eq_ignore_case (p c : ascii) : bool :=
  Ascii.eqb (toLowerCase_char p) (toLowerCase_char c).

(** [\d] *)
Definition is_digit (c : ascii) : bool :=
  let n := Ascii.N_of_ascii c in ((48 <=? n) && (n <=? 57))%N.

(** [[:\s]] *)
Definition is_separator (c : ascii) : bool :=
  Ascii.eqb c ":" || is_whitespace c.

(** The text after the literal [lit], when the text starts with it. *)
Fixpoint match_literal (lit s : string) : option string :=
  match lit with
  | EmptyString => Some s
  | String p lit' =>
      match s with
      | String c s' => if eq_ignore_case p c then match_literal lit' s' else None
      | EmptyString => None
      end
  end.

(** The text after the longest run of separators at its start. *)
Fixpoint skip_separators (s : string) : string :=
  match s with
  | String c s' => if is_separator c then skip_separators s' else s
  | EmptyString => EmptyString
  end.

(** The longest run of at most [max] digits at the start of the text,
    and the text after it. *)
Fixpoint take_digits (max : nat) (s : string) : string * string :=
  match max, s with
  | S m, String c s' =>
      if is_digit c then
        let (d, r) := take_digits m s' in (String c d, r)
      else (EmptyString, s)
  | _, _ => (EmptyString, s)
  end.

(** [\d{1,2}\/\d{1,2}\/\d{2,4}] at the start of the text: the text
    matched. *)
Definition match_date (s : string) : option string :=
  let (d1, r1) := take_digits 2 s in
  if (1 <=? String.length d1)%nat then
    match r1 with
    | String "/" r2 =>
        let (d2, r3) := take_digits 2 r2 in
        if (1 <=? String.length d2)%nat then
          match r3 with
          | String "/" r4 =>
              let (d3, _) := take_digits 4 r4 in
              if (2 <=? String.length d3)%nat
              then Some (d1 +:+ "/" +:+ d2 +:+ "/" +:+ d3)
              else None
          | _ => None
          end
        else None
    | _ => None
    end
  else None.

(** The pattern of a label at the start of the text: its group. *)
Definition match_at (label s : string) : option string :=
  match match_literal label s with
  | Some (String c rest) =>
      if is_separator c then match_date (skip_separators rest) else None
  | _ => None
  end.

(** [text.match(pattern)]: the group of the match at the first start
    that has one. *)
Fixpoint search (label s : string) : option string :=
  match match_at label s with
  | Some d => Some d
  | None =>
      match s with
      | String _ s' => search label s'
      | EmptyString => None
      end
  end.

(** [extractDateOfService(text)] for a text that is a string. *)
Definition extractDateOfService (text : string) : string :=
  if nonempty text then
    match search "Date of Service" text with
    | Some d => d
    | None =>
        match search "DOS" text with
        | Some d => d
        | None => EmptyString
        end
    end
  else EmptyString.

Fixpoint all_digits (s : string) : bool :=
  match s with
  | String c s' => is_digit c && all_digits s'
  | EmptyString => true
  end.

Fixpoint all_separators (s : string) : bool :=
  match s with
  | String c s' => is_separator c && all_separators s'
  | EmptyString => true
  end.

Definition starts_with_digit (s : string) : bool :=
  match s with
  | String c _ => is_digit c
  | EmptyString => false
  end.

(** One or two digits, a slash, one or two digits, a slash, two to
    four digits. *)
Definition date_shaped (x : string) : Prop :=
  ∃ d1 d2 d3,
    x = d1 +:+ "/" +:+ d2 +:+ "/" +:+ d3 ∧
    all_digits d1 = true ∧ (1 ≤ String.length d1 ≤ 2)%nat ∧
    all_digits d2 = true ∧ (1 ≤ String.length d2 ≤ 2)%nat ∧
    all_digits d3 = true ∧ (2 ≤ String.length d3 ≤ 4)%nat.

(** ** Notions used to state further properties of the engine *)

(** A scalar property that is missing: [undefined], [null], [false],
    [0] and the empty string become the empty string, any other value
    stays. *)
Definition blank_scalar (p : JsPrim) : JsPrim :=
  match p with
  | JsUndefined | JsNull | JsBoolean false | JsNumber Z0 | JsString EmptyString =>
      JsString EmptyString
  | JsBoolean true | JsNumber (Zpos _) | JsNumber (Zneg _) | JsString (String _ _) => p
  end.

(** A list property that is missing: anything but an array becomes the
    empty array. *)
Definition blank_list (f : JsField) : JsField :=
  match f with
  | FArray l => FArray l
  | FPrim _ => FArray []
  end.

(** A coding object with every missing property made empty. *)
Definition blanked (o : CodesObject) : CodesObject :=
  mkCodes (blank_scalar (admit_dx o)) (blank_scalar (pdx o))
          (blank_list (sdx o)) (blank_list (cpt o))
          (blank_scalar (modifier o)).

(** [r'] is [r] with its two sequences reordered. *)
Definition reordered (r r' : CodingResult.t) : Prop :=
  CodingResult.admit_dx r = CodingResult.admit_dx r' ∧
  CodingResult.pdx r = CodingResult.pdx r' ∧
  CodingResult.modifier r = CodingResult.modifier r' ∧
  CodingResult.sdx r ≡ₚ CodingResult.sdx r' ∧
  CodingResult.cpt r ≡ₚ CodingResult.cpt r'.

(** [r'] has the scalar codes of [r] and sequences holding the same
    codes, in any order and any number of times. *)
Definition same_code_sets (r r' : CodingResult.t) : Prop :=
  CodingResult.admit_dx r = CodingResult.admit_dx r' ∧
  CodingResult.pdx r = CodingResult.pdx r' ∧
  CodingResult.modifier r = CodingResult.modifier r' ∧
  (∀ x, x ∈ CodingResult.sdx r ↔ x ∈ CodingResult.sdx r') ∧
  (∀ x, x ∈ CodingResult.cpt r ↔ x ∈ CodingResult.cpt r').

(** ** Checking the percentage on every pair of small counters *)

(** The percentage as lines 336-337 compute it from the two
    counters. *)
Definition percentage_of (total correct : nat) : float :=
  (Math_round (accuracy total correct * 100) / 100)%float.

Definition in_range (p : float) : bool := ((0 <=? p) && (p <=? 100))%float.

(** Every pair of counters with [correct <= total <= n] gives a
    percentage between 0 and 100. *)
Definition check_range (n : nat) : bool :=
  forallb (λ total, forallb (λ correct, in_range (percentage_of total correct))
                            (seq 0 (S total)))
          (seq 0 (S n)).

(** Every pair of equal counters up to [n] gives the percentage 100. *)
Definition check_equal (n : nat) : bool :=
  forallb (λ total, PrimFloat.Leibniz.eqb (percentage_of total total) 100) (seq 0 (S n)).

(** ** Rounding to two decimals, on exact numbers *)

(** The whole number of hundredths nearest to
    [100 * correct / total], a tie going up. *)
Definition hundredths_half_up (total correct : nat) : Z :=
  ((20000 * Z.of_nat correct + Z.of_nat total) / (2 * Z.of_nat total))%Z.

(** The same with a tie going to the even neighbour. *)
Definition hundredths_half_even (total correct : nat) : Z :=
  let q := (10000 * Z.of_nat correct / Z.of_nat total)%Z in
  let r := (10000 * Z.of_nat correct mod Z.of_nat total)%Z in
  if (2 * r <? Z.of_nat total)%Z then q
  else if (Z.of_nat total <? 2 * r)%Z then (q + 1)%Z
  else if Z.even q then q else (q + 1)%Z.

(** [k] hundredths as a binary64 number: [k / 100], the binary64
    number nearest to that quotient. *)
Definition of_hundredths (k : Z) : float :=
  (PrimFloat.of_uint63 (Uint63.of_Z k) / 100)%float.

(** [k] is a whole number of hundredths nearest to
    [100 * correct / total]: it is at most half a hundredth away. *)
Definition nearest_hundredths (total correct : nat) (k : Z) : Prop :=
  (Z.abs (2 * (k * Z.of_nat total - 10000 * Z.of_nat correct)) ≤ Z.of_nat total)%Z.

Definition nearest_hundredthsb (total correct : nat) (k : Z) : bool :=
  (Z.abs (2 * (k * Z.of_nat total - 10000 * Z.of_nat correct)) <=? Z.of_nat total)%Z.

(** The percentage as the specification words it: 100 for the
    denominator zero, and otherwise the quotient rounded to two
    decimals, [round2] being the rounding of the exact quotient to a
    whole number of hundredths. *)
Definition percentage_as_stated (round2 : nat → nat → Z) (total correct : nat) (p : float)
    : Prop :=
  p = if (total =? 0)%nat then 100%float else of_hundredths (round2 total correct).

Definition is_hundredths (total correct : nat) (k : Z) : bool :=
  PrimFloat.Leibniz.eqb (percentage_of total correct) (of_hundredths k) &&
  nearest_hundredthsb total correct k.

(** Every pair of counters up to [n], the denominator not zero, gives
    a nearest whole number of hundredths: the one a tie sends up, or
    the one below it. *)
Definition check_nearest (n : nat) : bool :=
  forallb (λ total,
             forallb (λ correct,
                        let k := hundredths_half_up total correct in
                        is_hundredths total correct k || is_hundredths total correct (k - 1))
                     (seq 0 (S n)))
          (seq 1 n).

(** [n] codes, all different. *)
Definition sample_codes (n : nat) : list string :=
  map (λ i : nat, "C" +:+ pretty i) (seq 0 n).

(** ** List comparisons, with and without repeated codes *)

Definition occurrences (x : string) (l : list string) : nat :=
  length (filter (λ y, y = x) l).

(** The comparison of a list field with the sequences taken as sets:
    the three lists hold each code once. *)
Definition set_comparison_deduplicated (a u : list string) (c : SetComparison) : Prop :=
  set_comparison_as_stated a u c ∧
  NoDup (sc_matches c) ∧ NoDup (sc_additions c) ∧ NoDup (sc_removals c).

(** The comparison of a list field with every entry kept: an entry of
    a list occurs in it as often as in the sequence it is taken
    from. *)
Definition set_comparison_with_repeats (a u : list string) (c : SetComparison) : Prop :=
  set_comparison_as_stated a u c ∧
  (∀ x, occurrences x (sc_matches c) = if decide (x ∈ u) then occurrences x a else 0) ∧
  (∀ x, occurrences x (sc_additions c) = if decide (x ∈ a) then 0 else occurrences x u) ∧
  (∀ x, occurrences x (sc_removals c) = if decide (x ∈ u) then 0 else occurrences x a).

(** * Properties *)

(** ** Sanity checks of the number model *)

Example Math_round_half : Math_round 312.5 = 313%float.
Proof. reflexivity. Qed.

Example Math_round_below_half : Math_round 0.49999999999999994 = 0%float.
Proof. reflexivity. Qed.

Example Math_round_neg_half : Math_round (-2.5) = (-2)%float.
Proof. reflexivity. Qed.

Example round_one_third :
  (Math_round (accuracy 3 1 * 100) / 100)%float = 33.33%float.
Proof. reflexivity. Qed.

(** ** The examples of the specification *)

Example total_disagreement_on_one_field :
  percentage (calculateAccuracy_object
    (CodingResult.to_object (CodingResult.mk "A" "" [] [] ""))
    (CodingResult.to_object (CodingResult.mk "B" "" [] [] ""))) = 0%float.
Proof. reflexivity. Qed.

Example set_reconciliation :
  d_sdx (details (calculateAccuracy_object
    (CodingResult.to_object (CodingResult.mk "" "" ["I10"; "E78.5"] [] ""))
    (CodingResult.to_object (CodingResult.mk "" "" ["E78.5"; "Z79.01"] [] "")))) =
  {| sc_ai := ["I10"; "E78.5"]; sc_user := ["E78.5"; "Z79.01"];
     sc_matches := ["E78.5"]; sc_additions := ["Z79.01"]; sc_removals := ["I10"] |}.
Proof. vm_compute. reflexivity. Qed.

Example set_reconciliation_counters :
  let st := after_cpt
    (CodingResult.to_object (CodingResult.mk "" "" ["I10"; "E78.5"] [] ""))
    (CodingResult.to_object (CodingResult.mk "" "" ["E78.5"; "Z79.01"] [] "")) in
  totalFields st = 3 ∧ correctFields st = 1.
Proof. vm_compute. auto. Qed.

Example repeated_codes_stay_repeated :
  sc_removals (compare_lists ["I10"; "I10"] []) = ["I10"; "I10"].
Proof. reflexivity. Qed.

Example split_keeps_empty_pieces : split comma "a,,b," = ["a"; ""; "b"; ""].
Proof. reflexivity. Qed.

Example trim_both_ends : trim "  a b  " = "a b".
Proof. reflexivity. Qed.

(** ** Scalar fields *)

Lemma truthy_string (s : string) : truthy (JsString s) = bool_decide (s ≠ "").
Proof. destruct s; reflexivity. Qed.

Lemma js_or_string_default (s : string) : js_or (JsString s) (JsString "") = JsString s.
Proof. destruct s; reflexivity. Qed.

Lemma js_or_strings_truthy (a u : string) :
  truthy (js_or (JsString a) (JsString u)) = negb (bool_decide (a = "" ∧ u = "")).
Proof. destruct a, u; reflexivity. Qed.

Lemma strict_eq_strings (a u : string) :
  strict_eq (JsString a) (JsString u) = bool_decide (a = u).
Proof. unfold strict_eq. apply bool_decide_ext. split; congruence. Qed.

(** A scalar block on two strings, by cases. *)
Lemma scalar_block_strings (a u : string) upd st :
  scalar_block (JsString a) (JsString u) upd st =
    if bool_decide (a = "" ∧ u = "") then st
    else if bool_decide (a = u)
         then mkLocals (upd (l_details st)) (S (totalFields st)) (S (correctFields st))
         else mkLocals (l_details st) (S (totalFields st)) (correctFields st).
Proof.
  unfold scalar_block.
  rewrite js_or_strings_truthy, !js_or_string_default, strict_eq_strings.
  destruct (bool_decide (a = "" ∧ u = "")); reflexivity.
Qed.

Lemma list_block_details a u upd st :
  l_details (list_block a u upd st) =
    upd (compare_lists (array_or_empty a) (array_or_empty u)) (l_details st).
Proof. unfold list_block. destruct (_ || _); reflexivity. Qed.

Lemma list_block_totalFields a u upd st :
  totalFields (list_block a u upd st) =
    totalFields st + Set_size (array_or_empty a ++ array_or_empty u).
Proof.
  unfold list_block.
  destruct (array_or_empty a) as [|x l], (array_or_empty u) as [|y k];
    cbn [length Nat.ltb Nat.leb orb totalFields]; try reflexivity.
  unfold Set_size. cbn. rewrite size_empty. lia.
Qed.

Lemma scalar_block_details_cases a u upd st :
  l_details (scalar_block a u upd st) = l_details st ∨
  l_details (scalar_block a u upd st) = upd (l_details st).
Proof. unfold scalar_block. repeat case_match; auto. Qed.

(** The scalar entries of the report are those the scalar blocks
    leave: no later block touches the entry of an earlier field. *)
Lemma final_admit_dx a u :
  d_admit_dx (details (calculateAccuracy_object a u)) =
  d_admit_dx (l_details (after_admit_dx a u)).
Proof.
  unfold calculateAccuracy_object, result_of, after_cpt, after_sdx, cpt_block, sdx_block.
  cbn [details]. rewrite !list_block_details. cbn [d_admit_dx].
  unfold after_modifier, after_pdx, modifier_block, pdx_block.
  destruct (scalar_block_details_cases (modifier a) (modifier u)
    (λ d, mkDetails (d_admit_dx d) (d_pdx d) (d_sdx d) (d_cpt d) (set_match (d_modifier d)))
    (scalar_block (pdx a) (pdx u)
      (λ d, mkDetails (d_admit_dx d) (set_match (d_pdx d)) (d_sdx d) (d_cpt d) (d_modifier d))
      (after_admit_dx a u))) as [-> | ->];
  destruct (scalar_block_details_cases (pdx a) (pdx u)
      (λ d, mkDetails (d_admit_dx d) (set_match (d_pdx d)) (d_sdx d) (d_cpt d) (d_modifier d))
      (after_admit_dx a u)) as [-> | ->]; reflexivity.
Qed.

Lemma final_pdx a u :
  d_pdx (details (calculateAccuracy_object a u)) =
  d_pdx (l_details (after_pdx a u)).
Proof.
  unfold calculateAccuracy_object, result_of, after_cpt, after_sdx, cpt_block, sdx_block.
  cbn [details]. rewrite !list_block_details. cbn [d_pdx].
  unfold after_modifier, modifier_block.
  destruct (scalar_block_details_cases (modifier a) (modifier u)
    (λ d, mkDetails (d_admit_dx d) (d_pdx d) (d_sdx d) (d_cpt d) (set_match (d_modifier d)))
    (after_pdx a u)) as [-> | ->]; reflexivity.
Qed.

Lemma final_modifier a u :
  d_modifier (details (calculateAccuracy_object a u)) =
  d_modifier (l_details (after_modifier a u)).
Proof.
  unfold calculateAccuracy_object, result_of, after_cpt, after_sdx, cpt_block, sdx_block.
  cbn [details]. rewrite !list_block_details. reflexivity.
Qed.

(** Before its own block runs, the entry of a scalar field is still
    the one of the [details] literal, its flag [false]. *)
Lemma pdx_entry_before a u :
  d_pdx (l_details (after_admit_dx a u)) = d_pdx (l_details (initial_locals a u)).
Proof.
  unfold after_admit_dx, admit_dx_block.
  destruct (scalar_block_details_cases (admit_dx a) (admit_dx u)
    (λ d, mkDetails (set_match (d_admit_dx d)) (d_pdx d) (d_sdx d) (d_cpt d) (d_modifier d))
    (initial_locals a u)) as [-> | ->]; reflexivity.
Qed.

Lemma modifier_entry_before a u :
  d_modifier (l_details (after_pdx a u)) = d_modifier (l_details (initial_locals a u)).
Proof.
  unfold after_pdx, pdx_block.
  destruct (scalar_block_details_cases (pdx a) (pdx u)
    (λ d, mkDetails (d_admit_dx d) (set_match (d_pdx d)) (d_sdx d) (d_cpt d) (d_modifier d))
    (after_admit_dx a u)) as [-> | ->]; cbn [d_modifier].
  - unfold after_admit_dx, admit_dx_block.
    destruct (scalar_block_details_cases (admit_dx a) (admit_dx u)
      (λ d, mkDetails (set_match (d_admit_dx d)) (d_pdx d) (d_sdx d) (d_cpt d) (d_modifier d))
      (initial_locals a u)) as [-> | ->]; reflexivity.
  - unfold after_admit_dx, admit_dx_block.
    destruct (scalar_block_details_cases (admit_dx a) (admit_dx u)
      (λ d, mkDetails (set_match (d_admit_dx d)) (d_pdx d) (d_sdx d) (d_cpt d) (d_modifier d))
      (initial_locals a u)) as [-> | ->]; reflexivity.
Qed.

Lemma scalar_block_scored (a u : string) upd st flag' :
  (∀ d, flag' (upd d) = true) →
  flag' (l_details st) = false →
  scalar_field_scored a u st (scalar_block (JsString a) (JsString u) upd st)
    (flag' (l_details (scalar_block (JsString a) (JsString u) upd st))).
Proof.
  intros Hupd Hst. rewrite scalar_block_strings. split.
  - intros [-> ->]. cbn. auto.
  - intros Hne. rewrite bool_decide_eq_false_2 by (intros [-> ->]; destruct Hne; congruence).
    destruct (decide (a = u)) as [E | N].
    + rewrite bool_decide_eq_true_2 by done. cbn. split; [done|].
      split; [intros _; auto | done].
    + rewrite bool_decide_eq_false_2 by done. cbn. split; [done|].
      split; [done | intros _; auto].
Qed.

(** C1. Each scalar field (admit diagnosis, principal diagnosis,
    modifier) of a pair of coding results is scored by its own block:
    when both values are empty the two counters stay as they were and
    the recorded match flag is [false]; when one of them is not empty
    the denominator [totalFields] grows by one, and the numerator
    [correctFields] grows by one and the flag is [true] exactly when
    the two strings are equal. *)
Theorem scalar_fields_scoring (ai user : CodingResult.t) :
  let a := CodingResult.to_object ai in
  let u := CodingResult.to_object user in
  let report := calculateAccuracy_object a u in
  calculateAccuracy (CodingResult.to_js ai) (CodingResult.to_js user) = Normal report ∧
  scalar_field_scored (CodingResult.admit_dx ai) (CodingResult.admit_dx user)
    (initial_locals a u) (after_admit_dx a u)
    (fc_match (d_admit_dx (details report))) ∧
  scalar_field_scored (CodingResult.pdx ai) (CodingResult.pdx user)
    (after_admit_dx a u) (after_pdx a u)
    (fc_match (d_pdx (details report))) ∧
  scalar_field_scored (CodingResult.modifier ai) (CodingResult.modifier user)
    (after_pdx a u) (after_modifier a u)
    (fc_match (d_modifier (details report))).
Proof.
  intros a u report. split; [reflexivity|].
  subst report. rewrite final_admit_dx, final_pdx, final_modifier.
  split; [|split].
  - apply (scalar_block_scored _ _ _ _ (λ d, fc_match (d_admit_dx d))); reflexivity.
  - apply (scalar_block_scored _ _ _ _ (λ d, fc_match (d_pdx d))); [reflexivity|].
    rewrite pdx_entry_before. reflexivity.
  - apply (scalar_block_scored _ _ _ _ (λ d, fc_match (d_modifier d))); [reflexivity|].
    rewrite modifier_entry_before. reflexivity.
Qed.

(** The scoring of C1 on the admit diagnoses ["A"] against ["B"]: one
    field in the denominator, none in the numerator. *)
Lemma scalar_fields_scoring_witness :
  totalFields (after_admit_dx (CodingResult.to_object (CodingResult.mk "A" "" [] [] ""))
                              (CodingResult.to_object (CodingResult.mk "B" "" [] [] ""))) = 1 ∧
  correctFields (after_admit_dx (CodingResult.to_object (CodingResult.mk "A" "" [] [] ""))
                                (CodingResult.to_object (CodingResult.mk "B" "" [] [] ""))) = 0.
Proof.
  destruct (scalar_fields_scoring (CodingResult.mk "A" "" [] [] "")
                                  (CodingResult.mk "B" "" [] [] "")) as (_ & [_ H] & _).
  destruct H as (Ht & _ & Hne); [left; discriminate|].
  destruct Hne as [Hc _]; [discriminate|].
  split; [exact Ht | exact Hc].
Defined.

Lemma scalar_block_flag (a u : string) upd st flag' :
  (∀ d, flag' (upd d) = true) →
  flag' (l_details st) = false →
  match_flag_recorded a u
    (flag' (l_details (scalar_block (JsString a) (JsString u) upd st))).
Proof.
  intros Hupd Hst. unfold match_flag_recorded. rewrite scalar_block_strings.
  destruct (decide (a = "" ∧ u = "")) as [[-> ->] | N].
  - rewrite bool_decide_eq_true_2 by done. rewrite Hst.
    split; [done | intros (? & _); done].
  - rewrite bool_decide_eq_false_2 by done.
    destruct (decide (a = u)) as [-> | N'].
    + rewrite bool_decide_eq_true_2 by done. cbn. rewrite Hupd.
      assert (u ≠ "") by (intros ->; apply N; done).
      split; [intros _; auto | done].
    + rewrite bool_decide_eq_false_2 by done. cbn. rewrite Hst.
      split; [done | intros (_ & _ & ?); done].
Qed.

Lemma scalar_block_fc_ai a u upd st (entry : Details → FieldComparison) :
  (∀ d, entry (upd d) = set_match (entry d)) →
  fc_ai (entry (l_details (scalar_block a u upd st))) = fc_ai (entry (l_details st)).
Proof.
  intros H. destruct (scalar_block_details_cases a u upd st) as [-> | ->]; [done|].
  rewrite H. reflexivity.
Qed.

Lemma scalar_block_fc_user a u upd st (entry : Details → FieldComparison) :
  (∀ d, entry (upd d) = set_match (entry d)) →
  fc_user (entry (l_details (scalar_block a u upd st))) = fc_user (entry (l_details st)).
Proof.
  intros H. destruct (scalar_block_details_cases a u upd st) as [-> | ->]; [done|].
  rewrite H. reflexivity.
Qed.

(** C6, as stated, fails: comparing two results whose admit diagnosis
    is absent on both sides records the match flag [false], not
    [true]. *)
Lemma match_flag_both_absent :
  ¬ match_flag_as_stated
      (CodingResult.admit_dx CodingResult.empty) (CodingResult.admit_dx CodingResult.empty)
      (fc_match (d_admit_dx (details
         (calculateAccuracy_object (CodingResult.to_object CodingResult.empty)
                                   (CodingResult.to_object CodingResult.empty))))).
Proof.
  unfold match_flag_as_stated. cbn. intros [_ H].
  discriminate H. right. done.
Qed.

(** C6, amended. In the report of a pair of coding results, each scalar
    comparison (admit diagnosis, principal diagnosis, modifier) carries
    the two values compared, and its match flag is true if and only if
    both values are present (not empty) and textually identical; when
    both are absent the flag is false. *)
Theorem match_flag_iff_present_and_equal (ai user : CodingResult.t) :
  let d := details (calculateAccuracy_object (CodingResult.to_object ai)
                                             (CodingResult.to_object user)) in
  (fc_ai (d_admit_dx d) = JsString (CodingResult.admit_dx ai) ∧
   fc_user (d_admit_dx d) = JsString (CodingResult.admit_dx user) ∧
   match_flag_recorded (CodingResult.admit_dx ai) (CodingResult.admit_dx user)
     (fc_match (d_admit_dx d))) ∧
  (fc_ai (d_pdx d) = JsString (CodingResult.pdx ai) ∧
   fc_user (d_pdx d) = JsString (CodingResult.pdx user) ∧
   match_flag_recorded (CodingResult.pdx ai) (CodingResult.pdx user)
     (fc_match (d_pdx d))) ∧
  (fc_ai (d_modifier d) = JsString (CodingResult.modifier ai) ∧
   fc_user (d_modifier d) = JsString (CodingResult.modifier user) ∧
   match_flag_recorded (CodingResult.modifier ai) (CodingResult.modifier user)
     (fc_match (d_modifier d))).
Proof.
  intros d. subst d.
  rewrite final_admit_dx, final_pdx, final_modifier.
  split; [|split].
  - unfold after_admit_dx, admit_dx_block.
    rewrite (scalar_block_fc_ai _ _ _ _ d_admit_dx), (scalar_block_fc_user _ _ _ _ d_admit_dx)
      by reflexivity.
    split; [apply js_or_string_default|]. split; [apply js_or_string_default|].
    apply (scalar_block_flag _ _ _ _ (λ d, fc_match (d_admit_dx d))); reflexivity.
  - unfold after_pdx, pdx_block.
    rewrite (scalar_block_fc_ai _ _ _ _ d_pdx), (scalar_block_fc_user _ _ _ _ d_pdx)
      by reflexivity.
    rewrite pdx_entry_before.
    split; [apply js_or_string_default|]. split; [apply js_or_string_default|].
    apply (scalar_block_flag _ _ _ _ (λ d, fc_match (d_pdx d))); [reflexivity|].
    rewrite pdx_entry_before. reflexivity.
  - unfold after_modifier, modifier_block.
    rewrite (scalar_block_fc_ai _ _ _ _ d_modifier), (scalar_block_fc_user _ _ _ _ d_modifier)
      by reflexivity.
    rewrite modifier_entry_before.
    split; [apply js_or_string_default|]. split; [apply js_or_string_default|].
    apply (scalar_block_flag _ _ _ _ (λ d, fc_match (d_modifier d))); [reflexivity|].
    rewrite modifier_entry_before. reflexivity.
Qed.

(** ** List fields *)

Lemma Set_size_app (a u : list string) : Set_size (a ++ u) = union_cardinality a u.
Proof. unfold Set_size, union_cardinality. by rewrite list_to_set_app_L. Qed.

Lemma list_block_correctFields a u upd st :
  correctFields (list_block a u upd st) =
    correctFields st + length (filter (λ code, code ∈ array_or_empty u) (array_or_empty a)).
Proof.
  unfold list_block.
  destruct (array_or_empty a) as [|x l], (array_or_empty u) as [|y k];
    cbn [length Nat.ltb Nat.leb orb correctFields compare_lists sc_matches]; try reflexivity.
  rewrite filter_nil. cbn. lia.
Qed.

(** The denominator of a list field is the cardinality of the union,
    whatever the two sequences. *)
Lemma list_block_denominator (a u : list string) upd st :
  totalFields (list_block (FArray a) (FArray u) upd st) =
    totalFields st + union_cardinality a u.
Proof. rewrite list_block_totalFields. cbn [array_or_empty]. by rewrite Set_size_app. Qed.

Lemma matches_length_NoDup (a u : list string) :
  NoDup a →
  length (filter (λ code, code ∈ u) a) = intersection_cardinality a u.
Proof.
  intros Hnd. unfold intersection_cardinality.
  rewrite <- (size_list_to_set (C:=gset string)) by by apply NoDup_filter.
  f_equal. apply set_eq. intros x.
  rewrite elem_of_list_to_set, list_elem_of_filter, elem_of_intersection,
    !elem_of_list_to_set. tauto.
Qed.

(** The numerator of a list field is the cardinality of the
    intersection when the AI sequence lists no code twice. *)
Lemma list_block_numerator_NoDup (a u : list string) upd st :
  NoDup a →
  correctFields (list_block (FArray a) (FArray u) upd st) =
    correctFields st + intersection_cardinality a u.
Proof.
  intros Hnd. rewrite list_block_correctFields. cbn [array_or_empty].
  by rewrite matches_length_NoDup.
Qed.

(** C2, on the failing input. With the AI secondary diagnoses
    [["I10"; "I10"]] and the user's [["I10"]], the block of the field
    adds the cardinality of the union, 1, to the denominator, and adds
    2 to the numerator, where the deduplicated intersection has one
    element. *)
Theorem sdx_duplicate_counted_twice :
  let ai := CodingResult.to_object (CodingResult.mk "" "" ["I10"; "I10"] [] "") in
  let user := CodingResult.to_object (CodingResult.mk "" "" ["I10"] [] "") in
  totalFields (after_sdx ai user) = totalFields (after_modifier ai user) + 1 ∧
  union_cardinality ["I10"; "I10"] ["I10"] = 1 ∧
  correctFields (after_sdx ai user) = correctFields (after_modifier ai user) + 2 ∧
  intersection_cardinality ["I10"; "I10"] ["I10"] = 1.
Proof. vm_compute. auto. Qed.

Lemma final_sdx a u :
  d_sdx (details (calculateAccuracy_object a u)) =
    compare_lists (array_or_empty (sdx a)) (array_or_empty (sdx u)).
Proof.
  unfold calculateAccuracy_object, result_of, after_cpt, after_sdx, cpt_block, sdx_block.
  cbn [details]. rewrite !list_block_details. reflexivity.
Qed.

Lemma final_cpt a u :
  d_cpt (details (calculateAccuracy_object a u)) =
    compare_lists (array_or_empty (cpt a)) (array_or_empty (cpt u)).
Proof.
  unfold calculateAccuracy_object, result_of, after_cpt, cpt_block.
  cbn [details]. rewrite !list_block_details. reflexivity.
Qed.

Lemma compare_lists_as_stated (a u : list string) :
  set_comparison_as_stated a u (compare_lists a u).
Proof.
  unfold set_comparison_as_stated, compare_lists. cbn.
  split; [done|]. split; [done|].
  repeat split; try apply sublist_filter; intros; try (rewrite list_elem_of_filter in *; tauto).
Qed.

(** An entry repeated in the sequence it is taken from is repeated in
    the list computed: nothing is deduplicated. *)
Lemma compare_lists_keeps_repeats (a u : list string) (x : string) :
  length (filter (λ y, y = x) (sc_matches (compare_lists a u))) =
    (if decide (x ∈ u) then length (filter (λ y, y = x) a) else 0) ∧
  length (filter (λ y, y = x) (sc_removals (compare_lists a u))) =
    (if decide (x ∈ u) then 0 else length (filter (λ y, y = x) a)) ∧
  length (filter (λ y, y = x) (sc_additions (compare_lists a u))) =
    (if decide (x ∈ a) then 0 else length (filter (λ y, y = x) u)).
Proof.
  cbn. rewrite !list_filter_filter.
  assert (E : ∀ (P : string → Prop) `{!∀ y, Decision (P y)} (Q : Prop) `{!Decision Q} (l : list string),
             (∀ y, y = x → (P y ↔ Q)) →
             length (filter (λ y, y = x ∧ P y) l) =
               if decide Q then length (filter (λ y, y = x) l) else 0).
  { intros P ? Q ? l HPQ. induction l as [|z l IH]; [by destruct (decide Q)|].
    rewrite !filter_cons. destruct (decide (z = x)) as [-> | N].
    - destruct (decide Q) as [q | nq].
      + rewrite decide_True by (split; [done | by apply (HPQ x)]).
        cbn. by rewrite IH.
      + by rewrite decide_False by (intros [_ Hp]; apply nq; by apply (HPQ x)).
    - rewrite decide_False by (intros [? _]; done). done. }
  split; [|split].
  - apply (E (λ y, y ∈ u) _ (x ∈ u) _). intros y ->. done.
  - rewrite (E (λ y, y ∉ u) _ (x ∉ u) _) by (intros y ->; done).
    destruct (decide (x ∈ u)).
    + by rewrite decide_False by (intros ?; done).
    + by rewrite decide_True by done.
  - rewrite (E (λ y, y ∉ a) _ (x ∉ a) _) by (intros y ->; done).
    destruct (decide (x ∈ a)).
    + by rewrite decide_False by (intros ?; done).
    + by rewrite decide_True by done.
Qed.

Lemma occurrences_filter (P : string → Prop) (dec : ∀ y, Decision (P y)) (x : string)
    (l : list string) :
  occurrences x (filter P l) = if dec x then occurrences x l else 0.
Proof.
  unfold occurrences. rewrite list_filter_filter.
  induction l as [|z l IH]; [by destruct (dec x)|].
  rewrite !filter_cons. destruct (decide (z = x)) as [-> | N].
  - destruct (dec x) as [p | np].
    + rewrite decide_True by done. cbn. by rewrite IH.
    + by rewrite decide_False by (intros [_ ?]; done).
  - by rewrite decide_False by (intros [? _]; done).
Qed.

Lemma compare_lists_with_repeats (a u : list string) :
  set_comparison_with_repeats a u (compare_lists a u).
Proof.
  split; [apply compare_lists_as_stated|]. cbn [compare_lists sc_matches sc_additions sc_removals].
  split; [|split]; intros x; rewrite occurrences_filter.
  - by destruct (decide (x ∈ u)), (decide_rel elem_of x u).
  - destruct (decide (x ∈ a)) as [i | n], (not_dec _); done.
  - destruct (decide (x ∈ u)) as [i | n], (not_dec _); done.
Qed.

Lemma occurrences_cons (x z : string) (l : list string) :
  occurrences x (z :: l) = ((if decide (z = x) then 1 else 0) + occurrences x l)%nat.
Proof. unfold occurrences. rewrite filter_cons. by destruct (decide (z = x)). Qed.

Lemma occurrences_sublist (x : string) (c a : list string) :
  c `sublist_of` a → (occurrences x c ≤ occurrences x a)%nat.
Proof.
  induction 1 as [|z c a _ IH|z c a _ IH]; rewrite ?occurrences_cons; [done|lia|lia].
Qed.

(** A subsequence of [a] that holds the entries satisfying [P] as
    often as [a] and no other entry is [a] filtered by [P]. *)
Lemma sublist_by_occurrences (P : string → Prop) (dec : ∀ y, Decision (P y))
    (a c : list string) :
  c `sublist_of` a →
  (∀ x, occurrences x c = if dec x then occurrences x a else 0) →
  c = filter P a.
Proof.
  revert c. induction a as [|z a IH]; intros c Hs Ho.
  - by apply sublist_nil_r in Hs as ->.
  - rewrite filter_cons. apply sublist_cons_r in Hs as [Hs | (c' & -> & Hs)].
    + destruct (decide (P z)) as [p | np].
      * pose proof (Ho z) as Hz. pose proof (occurrences_sublist z _ _ Hs).
        rewrite occurrences_cons in Hz. destruct (dec z); [|done].
        rewrite decide_True in Hz by done. lia.
      * apply IH; [done|]. intros x. rewrite (Ho x), occurrences_cons.
        destruct (dec x) as [px | npx]; [|done].
        by rewrite decide_False by (intros ->; done).
    + destruct (decide (P z)) as [p | np].
      * f_equal. apply IH; [done|]. intros x. pose proof (Ho x) as Hx.
        rewrite !occurrences_cons in Hx.
        destruct (dec x) as [px | npx]; [lia|].
        rewrite decide_False in Hx by (intros ->; done). done.
      * pose proof (Ho z) as Hz. rewrite occurrences_cons in Hz.
        rewrite decide_True in Hz by done. destruct (dec z); [done|lia].
Qed.

(** The comparison with every entry kept describes one report only,
    that of the code. *)
Lemma set_comparison_with_repeats_unique (a u : list string) (c : SetComparison) :
  set_comparison_with_repeats a u c → c = compare_lists a u.
Proof.
  intros ((Ha & Hu & [Sm _] & [Sa _] & [Sr _]) & Om & Oa & Or).
  destruct c as [ca cu cm cd cr].
  cbn [sc_ai sc_user sc_matches sc_additions sc_removals] in *.
  subst ca cu. unfold compare_lists. f_equal.
  - apply sublist_by_occurrences; [done|]. intros x. rewrite Om.
    by destruct (decide (x ∈ u)), (decide_rel elem_of x u).
  - apply sublist_by_occurrences; [done|]. intros x. rewrite Oa.
    destruct (decide (x ∈ a)) as [i | n], (not_dec _); done.
  - apply sublist_by_occurrences; [done|]. intros x. rewrite Or.
    destruct (decide (x ∈ u)) as [i | n], (not_dec _); done.
Qed.

Lemma compare_lists_deduplicated (a u : list string) :
  NoDup a → NoDup u → set_comparison_deduplicated a u (compare_lists a u).
Proof.
  intros Na Nu. split; [apply compare_lists_as_stated|].
  cbn [compare_lists sc_matches sc_additions sc_removals].
  split; [|split]; by apply NoDup_filter.
Qed.



Example set_comparison_of_sample_results :
  d_sdx (details (calculateAccuracy_object
     (CodingResult.to_object (CodingResult.mk "" "" ["I10"; "E11.9"; "I10"; "J45"] [] ""))
     (CodingResult.to_object (CodingResult.mk "" "" ["Z79.4"; "I10"; "Z79.4"] [] "")))) =
  {| sc_ai := ["I10"; "E11.9"; "I10"; "J45"];
     sc_user := ["Z79.4"; "I10"; "Z79.4"];
     sc_matches := ["I10"; "I10"];
     sc_additions := ["Z79.4"; "Z79.4"];
     sc_removals := ["E11.9"; "J45"] |}.
Proof. reflexivity. Qed.

(** ** The two counters and the percentage *)

Lemma scalar_block_totalFields_strings (a u : string) upd st :
  totalFields (scalar_block (JsString a) (JsString u) upd st) =
    totalFields st + scalar_denominator a u.
Proof.
  rewrite scalar_block_strings. unfold scalar_denominator.
  repeat case_bool_decide; cbn; lia.
Qed.

Lemma scalar_block_correctFields_strings (a u : string) upd st :
  correctFields (scalar_block (JsString a) (JsString u) upd st) =
    correctFields st + scalar_numerator a u.
Proof.
  rewrite scalar_block_strings. unfold scalar_numerator.
  repeat case_bool_decide; cbn; lia.
Qed.

(** The denominator of a pair of coding results, field by field. *)
Lemma totalFields_sum (ai user : CodingResult.t) :
  totalFields (after_cpt (CodingResult.to_object ai) (CodingResult.to_object user)) =
    scalar_denominator (CodingResult.admit_dx ai) (CodingResult.admit_dx user) +
    scalar_denominator (CodingResult.pdx ai) (CodingResult.pdx user) +
    scalar_denominator (CodingResult.modifier ai) (CodingResult.modifier user) +
    union_cardinality (CodingResult.sdx ai) (CodingResult.sdx user) +
    union_cardinality (CodingResult.cpt ai) (CodingResult.cpt user).
Proof.
  unfold after_cpt, cpt_block, after_sdx, sdx_block. cbn [CodingResult.to_object sdx cpt].
  rewrite !list_block_denominator.
  unfold after_modifier, modifier_block, after_pdx, pdx_block, after_admit_dx, admit_dx_block.
  cbn [CodingResult.to_object admit_dx pdx modifier].
  rewrite !scalar_block_totalFields_strings. reflexivity.
Qed.

(** The numerator of a pair of coding results, field by field. *)
Lemma correctFields_sum (ai user : CodingResult.t) :
  correctFields (after_cpt (CodingResult.to_object ai) (CodingResult.to_object user)) =
    scalar_numerator (CodingResult.admit_dx ai) (CodingResult.admit_dx user) +
    scalar_numerator (CodingResult.pdx ai) (CodingResult.pdx user) +
    scalar_numerator (CodingResult.modifier ai) (CodingResult.modifier user) +
    length (filter (λ code, code ∈ CodingResult.sdx user) (CodingResult.sdx ai)) +
    length (filter (λ code, code ∈ CodingResult.cpt user) (CodingResult.cpt ai)).
Proof.
  unfold after_cpt, cpt_block, after_sdx, sdx_block. cbn [CodingResult.to_object sdx cpt].
  rewrite !list_block_correctFields. cbn [array_or_empty].
  unfold after_modifier, modifier_block, after_pdx, pdx_block, after_admit_dx, admit_dx_block.
  cbn [CodingResult.to_object admit_dx pdx modifier].
  rewrite !scalar_block_correctFields_strings. reflexivity.
Qed.

Lemma union_cardinality_0 (a u : list string) :
  union_cardinality a u = 0 ↔ a = [] ∧ u = [].
Proof.
  unfold union_cardinality. rewrite size_empty_iff. split.
  - intros H. destruct a as [|x a]; [destruct u as [|y u]; [done|]|]; exfalso.
    + apply (not_elem_of_empty (C:=gset string) y). rewrite <- H. set_solver.
    + apply (not_elem_of_empty (C:=gset string) x). rewrite <- H. set_solver.
  - intros [-> ->]. set_solver.
Qed.

Lemma scalar_denominator_0 (a u : string) :
  scalar_denominator a u = 0 ↔ a = "" ∧ u = "".
Proof. unfold scalar_denominator. case_bool_decide; split; (done || lia). Qed.

Lemma percentage_result_of st :
  percentage (result_of st) =
    if (totalFields st =? 0)%nat then 100%float
    else (Math_round (of_nat (correctFields st) / of_nat (totalFields st) * 100 * 100) / 100)%float.
Proof.
  unfold result_of, accuracy. cbn [percentage].
  destruct (totalFields st); reflexivity.
Qed.

(** For a pair of coding results the denominator is zero exactly when
    every field of both is empty. *)
Lemma totalFields_0_iff_empty (ai user : CodingResult.t) :
  totalFields (after_cpt (CodingResult.to_object ai) (CodingResult.to_object user)) = 0 ↔
  ai = CodingResult.empty ∧ user = CodingResult.empty.
Proof.
  rewrite totalFields_sum. split.
  - intros H.
    assert (H1 : scalar_denominator (CodingResult.admit_dx ai) (CodingResult.admit_dx user) = 0) by lia.
    assert (H2 : scalar_denominator (CodingResult.pdx ai) (CodingResult.pdx user) = 0) by lia.
    assert (H3 : scalar_denominator (CodingResult.modifier ai) (CodingResult.modifier user) = 0) by lia.
    assert (H4 : union_cardinality (CodingResult.sdx ai) (CodingResult.sdx user) = 0) by lia.
    assert (H5 : union_cardinality (CodingResult.cpt ai) (CodingResult.cpt user) = 0) by lia.
    apply scalar_denominator_0 in H1, H2, H3. apply union_cardinality_0 in H4, H5.
    destruct ai, user; cbn in *. unfold CodingResult.empty.
    destruct H1, H2, H3, H4, H5. subst. done.
  - intros [-> ->]. reflexivity.
Qed.

Lemma scalar_numerator_le (a u : string) :
  (scalar_numerator a u ≤ scalar_denominator a u)%nat.
Proof. unfold scalar_numerator, scalar_denominator. repeat case_bool_decide; lia. Qed.

Lemma scalar_numerator_self (a : string) : scalar_numerator a a = scalar_denominator a a.
Proof. unfold scalar_numerator, scalar_denominator. repeat case_bool_decide; done. Qed.

Lemma intersection_le_union (a u : list string) :
  (intersection_cardinality a u ≤ union_cardinality a u)%nat.
Proof.
  apply subseteq_size. intros x. rewrite elem_of_intersection, elem_of_union. tauto.
Qed.

Lemma intersection_self (a : list string) :
  intersection_cardinality a a = union_cardinality a a.
Proof.
  unfold intersection_cardinality, union_cardinality.
  by rewrite intersection_idemp_L, union_idemp_L.
Qed.

(** Where the AI sequences list no code twice, the numerator does not
    exceed the denominator. *)
Lemma correctFields_le_totalFields (ai user : CodingResult.t) :
  NoDup (CodingResult.sdx ai) → NoDup (CodingResult.cpt ai) →
  (correctFields (after_cpt (CodingResult.to_object ai) (CodingResult.to_object user)) ≤
   totalFields (after_cpt (CodingResult.to_object ai) (CodingResult.to_object user)))%nat.
Proof.
  intros Hs Hc. rewrite correctFields_sum, totalFields_sum, !matches_length_NoDup by done.
  pose proof (scalar_numerator_le (CodingResult.admit_dx ai) (CodingResult.admit_dx user)).
  pose proof (scalar_numerator_le (CodingResult.pdx ai) (CodingResult.pdx user)).
  pose proof (scalar_numerator_le (CodingResult.modifier ai) (CodingResult.modifier user)).
  pose proof (intersection_le_union (CodingResult.sdx ai) (CodingResult.sdx user)).
  pose proof (intersection_le_union (CodingResult.cpt ai) (CodingResult.cpt user)).
  lia.
Qed.

(** Where a result lists no code twice, comparing it with itself
    gives a numerator equal to the denominator. *)
Lemma correctFields_self (r : CodingResult.t) :
  NoDup (CodingResult.sdx r) → NoDup (CodingResult.cpt r) →
  correctFields (after_cpt (CodingResult.to_object r) (CodingResult.to_object r)) =
  totalFields (after_cpt (CodingResult.to_object r) (CodingResult.to_object r)).
Proof.
  intros Hs Hc. rewrite correctFields_sum, totalFields_sum, !matches_length_NoDup by done.
  by rewrite !scalar_numerator_self, !intersection_self.
Qed.

(** C4, on the failing input. A result whose secondary diagnoses are
    [["I10"; "I10"]], compared with itself, has the denominator 1, the
    numerator 2 and the percentage 200. *)
Theorem self_comparison_with_repeated_code :
  let r := CodingResult.mk "" "" ["I10"; "I10"] [] "" in
  totalFields (after_cpt (CodingResult.to_object r) (CodingResult.to_object r)) = 1 ∧
  correctFields (after_cpt (CodingResult.to_object r) (CodingResult.to_object r)) = 2 ∧
  ∃ report,
    calculateAccuracy (CodingResult.to_js r) (CodingResult.to_js r) = Normal report ∧
    percentage report = 200%float.
Proof. cbv zeta. split; [|split]; [vm_compute; reflexivity ..|]. eexists. split; vm_compute; reflexivity. Qed.

(** C7, on the failing input. With the AI secondary diagnoses
    [["I10"; "I10"]] against the user's [["I10"]] the percentage is
    200, above 100.  The rounding itself is as stated: one field right
    out of three gives 33.33. *)
Theorem percentage_above_100 :
  (∃ report,
     calculateAccuracy (CodingResult.to_js (CodingResult.mk "" "" ["I10"; "I10"] [] ""))
                       (CodingResult.to_js (CodingResult.mk "" "" ["I10"] [] ""))
       = Normal report ∧
     percentage report = 200%float ∧
     (100 <? percentage report)%float = true) ∧
  (∃ report,
     calculateAccuracy (CodingResult.to_js (CodingResult.mk "K21.9" "K21.9" [] [] "59"))
                       (CodingResult.to_js (CodingResult.mk "K21.9" "K44.9" [] [] "XS"))
       = Normal report ∧
     percentage report = 33.33%float).
Proof.
  split; eexists; (split; [vm_compute; reflexivity|]); [split|]; vm_compute; reflexivity.
Qed.

(** ** Splitting and trimming *)

Lemma app_String c (s t : string) : String c s +:+ t = String c (s +:+ t).
Proof. reflexivity. Qed.

Lemma app_empty_l (t : string) : "" +:+ t = t.
Proof. reflexivity. Qed.

Lemma app_empty_r (s : string) : s +:+ "" = s.
Proof. induction s as [|c s IH]; [done|]. by rewrite app_String, IH. Qed.

Lemma split_nonempty sep s : split sep s ≠ [].
Proof.
  destruct s as [|c s]; [done|]. cbn.
  destruct (Ascii.eqb c sep); [done|]. destruct (split sep s); done.
Qed.

(** Joining the pieces with the separator gives the string back. *)
Lemma join_split sep s : join sep (split sep s) = s.
Proof.
  induction s as [|c s IH]; [done|]. cbn [split].
  destruct (Ascii.eqb_spec c sep) as [-> | N].
  - pose proof (split_nonempty sep s).
    destruct (split sep s) as [|p ps]; [done|].
    change (join sep ("" :: p :: ps)) with ("" +:+ String sep (join sep (p :: ps))).
    by rewrite IH.
  - pose proof (split_nonempty sep s).
    destruct (split sep s) as [|p ps]; [done|].
    destruct ps as [|q qs].
    + cbn in *. by rewrite IH.
    + change (join sep (String c p :: q :: qs))
        with (String c p +:+ String sep (join sep (q :: qs))).
      change (join sep (p :: q :: qs)) with (p +:+ String sep (join sep (q :: qs))) in IH.
      by rewrite app_String, IH.
Qed.

(** No piece holds the separator. *)
Lemma split_separator_free sep s :
  Forall (λ p, sep ∉ list_ascii_of_string p) (split sep s).
Proof.
  induction s as [|c s IH]; cbn [split].
  - constructor; [|done]. cbn. apply not_elem_of_nil.
  - destruct (Ascii.eqb_spec c sep) as [-> | N].
    + constructor; [|done]. cbn. apply not_elem_of_nil.
    + destruct (split sep s) as [|p ps].
      * constructor; [|done]. cbn. rewrite list_elem_of_singleton. congruence.
      * inversion IH; subst. constructor; [|done].
        cbn. rewrite elem_of_cons. intros [? | ?]; congruence.
Qed.

Lemma trimStart_spec p :
  ∃ l, p = l +:+ trimStart p ∧ whitespace_only l ∧
       ∀ c t', trimStart p = String c t' → is_whitespace c = false.
Proof.
  induction p as [|c p (l & E & Hl & Hc)].
  - exists "". split; [done|]. split; [|done]. intros c Hin. cbn in Hin. by apply elem_of_nil in Hin.
  - cbn [trimStart]. destruct (is_whitespace c) eqn:W.
    + exists (String c l). split; [by rewrite app_String, <- E|]. split; [|done].
      intros c' Hin. cbn in Hin. apply elem_of_cons in Hin as [-> | Hin]; [done | by apply Hl].
    + exists "". split; [done|]. split.
      * intros c' Hin. cbn in Hin. by apply elem_of_nil in Hin.
      * intros c' t' [= <- _]. done.
Qed.

Lemma trimEnd_spec q :
  ∃ r, q = trimEnd q +:+ r ∧ whitespace_only r ∧
       (∀ c t', trimEnd q = t' +:+ String c "" → is_whitespace c = false) ∧
       (∀ c q', q = String c q' → is_whitespace c = false → ∃ t', trimEnd q = String c t').
Proof.
  induction q as [|c q (r & E & Hr & Hlast & Hfirst)].
  - exists "". split; [done|]. split; [|split].
    + intros c Hin. cbn in Hin. by apply elem_of_nil in Hin.
    + intros c [|c' t'] H; cbn in H; discriminate.
    + intros c q' H. discriminate.
  - cbn [trimEnd]. destruct (trimEnd q) as [|d t] eqn:T.
    + destruct (is_whitespace c) eqn:W.
      * exists (String c r). split; [cbn in E; by rewrite E|]. split; [|split].
        -- intros c' Hin. cbn in Hin. apply elem_of_cons in Hin as [-> | Hin]; [done | by apply Hr].
        -- intros c' [|c'' t'] H; cbn in H; discriminate.
        -- intros c' q' [= <- <-] W'. congruence.
      * exists r. split; [by rewrite app_String, <- E|]. split; [done|]. split.
        -- intros c' [|c'' t'] H.
           ++ cbn in H. by injection H as <-.
           ++ rewrite app_String in H. injection H as _ H.
              destruct t'; cbn in H; discriminate.
        -- intros c' q' [= <- <-] _. by eexists.
    + exists r. split; [by rewrite app_String, <- E|]. split; [done|]. split.
      * intros c' [|c'' t'] H.
        -- cbn in H. discriminate.
        -- rewrite app_String in H. injection H as _ H. by apply (Hlast c' t').
      * intros c' q' [= <- <-] _. by eexists.
Qed.

(** [trim] removes the whitespace at the two ends and nothing else. *)
Lemma trim_is_trim_of p : is_trim_of p (trim p).
Proof.
  unfold trim. destruct (trimStart_spec p) as (l & E & Hl & Hfirst).
  destruct (trimEnd_spec (trimStart p)) as (r & E' & Hr & Hlast & Hkeep).
  exists l, r. split; [by rewrite <- E'|]. split; [done|]. split; [done|]. split; [|done].
  intros c t' Ht. destruct (trimStart p) as [|c0 q0] eqn:S.
  - cbn in Ht. discriminate.
  - pose proof (Hfirst c0 q0 eq_refl) as W.
    destruct (Hkeep c0 q0 eq_refl W) as [t'' Ht'']. rewrite Ht'' in Ht.
    by injection Ht as <- _.
Qed.

Lemma truthy_string_nonempty (p : string) : truthy (JsString p) ↔ p ≠ "".
Proof. destruct p; cbn; [split; [done | intros H; by destruct H] | split; done]. Qed.

(** C8. A list field that arrives as a string is cut at its commas
    (the pieces joined by commas give the string back and hold no
    comma), each piece is trimmed of the whitespace at its two ends,
    empty pieces are dropped and the order is kept; the string
    ["45378, 43235 ,  "] gives [["45378"; "43235"]]; an absent field
    gives the empty sequence. *)
Theorem comma_string_normalisation :
  (∀ s : string, ∃ parts : list string,
     join comma parts = s ∧
     Forall (λ p, comma ∉ list_ascii_of_string p) parts ∧
     normalize_list_field (FPrim (JsString s)) =
       FArray (filter (λ p, p ≠ "") (map trim parts))) ∧
  (∀ p : string, is_trim_of p (trim p)) ∧
  normalize_list_field (FPrim (JsString "45378, 43235 ,  ")) = FArray ["45378"; "43235"] ∧
  normalize_list_field (FPrim JsUndefined) = FArray [].
Proof.
  split; [|split; [apply trim_is_trim_of | split; reflexivity]].
  intros s. exists (split comma s).
  split; [apply join_split|]. split; [apply split_separator_free|].
  destruct s as [|c s]; [reflexivity|].
  unfold normalize_list_field. cbn [field_truthy truthy String.eqb negb].
  f_equal. apply list_filter_iff. intros p. apply truthy_string_nonempty.
Qed.

(** ** The guard of [/submit-corrections] *)

(** C9. A request whose [document_key] or corrected result is missing
    is refused with status 400 and the engine is not called; a request
    with both present calls the engine, once, on the original and the
    corrected result. *)
Theorem submit_corrections_guard (body : Body) :
  (missing (document_key body) = true ∨ missing (corrected body) = true →
     submit_corrections body =
       [Respond 400 (Refused "document_key and corrected data are required")] ∧
     engine_calls (submit_corrections body) = []) ∧
  (missing (document_key body) = false ∧ missing (corrected body) = false →
     engine_calls (submit_corrections body) = [(original body, corrected body)]).
Proof.
  unfold submit_corrections. split.
  - intros H. assert (missing (document_key body) || missing (corrected body) = true) as ->.
    { destruct H as [-> | ->]; [done | by rewrite orb_true_r]. }
    done.
  - intros [-> ->]. cbn [orb].
    destruct (calculateAccuracy (original body) (corrected body)); reflexivity.
Qed.

Lemma submit_corrections_guard_witness :
  engine_calls (submit_corrections
    (mkBody VUndefined VUndefined (CodingResult.to_js CodingResult.empty)
            (CodingResult.to_js CodingResult.empty) VUndefined VUndefined)) = [] ∧
  engine_calls (submit_corrections
    (mkBody (VPrim (JsString "doc-1")) VUndefined (CodingResult.to_js CodingResult.empty)
            (CodingResult.to_js CodingResult.empty) VUndefined VUndefined)) =
    [(CodingResult.to_js CodingResult.empty, CodingResult.to_js CodingResult.empty)].
Proof.
  split.
  - apply (submit_corrections_guard
      (mkBody VUndefined VUndefined (CodingResult.to_js CodingResult.empty)
              (CodingResult.to_js CodingResult.empty) VUndefined VUndefined)).
    left. reflexivity.
  - apply (submit_corrections_guard
      (mkBody (VPrim (JsString "doc-1")) VUndefined (CodingResult.to_js CodingResult.empty)
              (CodingResult.to_js CodingResult.empty) VUndefined VUndefined)).
    split; reflexivity.
Defined.

(** C10. [calculateAccuracy] throws a TypeError at its first property
    read when either argument is [undefined] or [null], and returns a
    report for every other pair of arguments.  The handler checks
    [document_key] and [corrected] only: a request with both present
    and [original] omitted calls the engine with [undefined], the
    engine throws, and the request ends with status 500 and no
    report. *)
Theorem engine_throws_on_missing_argument :
  (∀ userCodes, calculateAccuracy VUndefined userCodes = Throw (TypeError JsUndefined "admit_dx")) ∧
  (∀ userCodes, calculateAccuracy VNull userCodes = Throw (TypeError JsNull "admit_dx")) ∧
  (∀ aiCodes, nullish aiCodes = false →
     calculateAccuracy aiCodes VUndefined = Throw (TypeError JsUndefined "admit_dx") ∧
     calculateAccuracy aiCodes VNull = Throw (TypeError JsNull "admit_dx")) ∧
  (∀ aiCodes userCodes, nullish aiCodes = false → nullish userCodes = false →
     ∃ report, calculateAccuracy aiCodes userCodes = Normal report) ∧
  (∀ body, missing (document_key body) = false → missing (corrected body) = false →
     original body = VUndefined →
     submit_corrections body =
       [EngineCall VUndefined (corrected body);
        Respond 500 (Failed (TypeError JsUndefined "admit_dx"))]).
Proof.
  split; [done|]. split; [done|]. split; [|split].
  - intros [[[]|]|]; cbn; done.
  - intros [[[]|]|] [[[]|]|]; cbn; try done; intros _ _; by eexists.
  - intros body Hk Hc Ho. unfold submit_corrections. rewrite Hk, Hc, Ho. reflexivity.
Qed.

Lemma engine_throws_on_missing_argument_witness :
  submit_corrections
    (mkBody (VPrim (JsString "doc-1")) VUndefined VUndefined
            (CodingResult.to_js (CodingResult.mk "K21.9" "" [] [] "")) VUndefined VUndefined) =
    [EngineCall VUndefined (CodingResult.to_js (CodingResult.mk "K21.9" "" [] [] ""));
     Respond 500 (Failed (TypeError JsUndefined "admit_dx"))].
Proof.
  apply (proj2 (proj2 (proj2 (proj2 engine_throws_on_missing_argument)))); reflexivity.
Defined.

(** ** Sequences that list no code twice *)

(** Where the AI sequences list no code twice, each list field adds the
    cardinality of the union to the denominator and the cardinality of
    the intersection to the numerator. *)
Theorem list_fields_scoring_without_repeats (ai user : CodingResult.t) :
  NoDup (CodingResult.sdx ai) → NoDup (CodingResult.cpt ai) →
  let a := CodingResult.to_object ai in
  let u := CodingResult.to_object user in
  (totalFields (after_sdx a u) =
     totalFields (after_modifier a u) +
     union_cardinality (CodingResult.sdx ai) (CodingResult.sdx user) ∧
   correctFields (after_sdx a u) =
     correctFields (after_modifier a u) +
     intersection_cardinality (CodingResult.sdx ai) (CodingResult.sdx user)) ∧
  (totalFields (after_cpt a u) =
     totalFields (after_sdx a u) +
     union_cardinality (CodingResult.cpt ai) (CodingResult.cpt user) ∧
   correctFields (after_cpt a u) =
     correctFields (after_sdx a u) +
     intersection_cardinality (CodingResult.cpt ai) (CodingResult.cpt user)).
Proof.
  intros Hs Hc a u. unfold after_cpt, cpt_block, after_sdx, sdx_block.
  subst a u. cbn [CodingResult.to_object sdx cpt].
  rewrite !list_block_denominator, !list_block_numerator_NoDup by done. done.
Qed.

Lemma NoDup_two_codes : NoDup ["I10"; "E78.5"].
Proof. apply (bool_decide_unpack _). vm_compute. exact I. Defined.

Lemma list_fields_scoring_without_repeats_witness :
  correctFields (after_sdx
    (CodingResult.to_object (CodingResult.mk "" "" ["I10"; "E78.5"] [] ""))
    (CodingResult.to_object (CodingResult.mk "" "" ["E78.5"; "Z79.01"] [] ""))) =
  correctFields (after_modifier
    (CodingResult.to_object (CodingResult.mk "" "" ["I10"; "E78.5"] [] ""))
    (CodingResult.to_object (CodingResult.mk "" "" ["E78.5"; "Z79.01"] [] ""))) +
  intersection_cardinality ["I10"; "E78.5"] ["E78.5"; "Z79.01"].
Proof.
  apply (list_fields_scoring_without_repeats
           (CodingResult.mk "" "" ["I10"; "E78.5"] [] "")
           (CodingResult.mk "" "" ["E78.5"; "Z79.01"] [] "")
           NoDup_two_codes (NoDup_nil_2 (A:=string))).
Defined.

Lemma correctFields_le_totalFields_witness :
  (correctFields (after_cpt
     (CodingResult.to_object (CodingResult.mk "K21.9" "" ["I10"; "E78.5"] [] ""))
     (CodingResult.to_object (CodingResult.mk "K21.9" "" ["E78.5"; "Z79.01"] [] ""))) ≤
   totalFields (after_cpt
     (CodingResult.to_object (CodingResult.mk "K21.9" "" ["I10"; "E78.5"] [] ""))
     (CodingResult.to_object (CodingResult.mk "K21.9" "" ["E78.5"; "Z79.01"] [] ""))))%nat.
Proof.
  apply (correctFields_le_totalFields
           (CodingResult.mk "K21.9" "" ["I10"; "E78.5"] [] "")
           (CodingResult.mk "K21.9" "" ["E78.5"; "Z79.01"] [] "")
           NoDup_two_codes (NoDup_nil_2 (A:=string))).
Defined.

Lemma correctFields_self_witness :
  correctFields (after_cpt
    (CodingResult.to_object (CodingResult.mk "K21.9" "" ["I10"; "E78.5"] [] ""))
    (CodingResult.to_object (CodingResult.mk "K21.9" "" ["I10"; "E78.5"] [] ""))) =
  totalFields (after_cpt
    (CodingResult.to_object (CodingResult.mk "K21.9" "" ["I10"; "E78.5"] [] ""))
    (CodingResult.to_object (CodingResult.mk "K21.9" "" ["I10"; "E78.5"] [] ""))).
Proof.
  apply (correctFields_self (CodingResult.mk "K21.9" "" ["I10"; "E78.5"] [] "")
           NoDup_two_codes (NoDup_nil_2 (A:=string))).
Defined.

(** ** Further properties of the engine *)

Lemma js_or_default_idemp (a : JsPrim) :
  js_or (js_or a (JsString "")) (JsString "") = js_or a (JsString "").
Proof. unfold js_or. destruct (truthy a) eqn:E; [by rewrite E | reflexivity]. Qed.

Lemma scalar_block_defaulted (a u : JsPrim) upd st :
  scalar_block (js_or a (JsString "")) (js_or u (JsString "")) upd st =
  scalar_block a u upd st.
Proof.
  unfold scalar_block. rewrite !js_or_default_idemp.
  replace (truthy (js_or (js_or a (JsString "")) (js_or u (JsString ""))))
    with (truthy (js_or a u)); [reflexivity|].
  unfold js_or. destruct (truthy a) eqn:Ea; [by rewrite Ea|].
  cbn. destruct (truthy u) eqn:Eu; [by rewrite Eu | reflexivity].
Qed.

Lemma blank_scalar_js_or (p : JsPrim) : blank_scalar p = js_or p (JsString "").
Proof. destruct p as [| |[]|[]|[]]; reflexivity. Qed.

Lemma blank_list_array_or_empty (f : JsField) : blank_list f = FArray (array_or_empty f).
Proof. by destruct f. Qed.



Example missing_properties_in_the_details :
  d_admit_dx (details (calculateAccuracy_object
    (mkCodes JsNull (JsBoolean false) (FPrim (JsString "I10")) (FArray ["99213"]) (JsNumber 0))
    (mkCodes JsUndefined (JsString "K21.9") (FArray ["I10"]) (FPrim JsNull) (JsString "")))) =
    {| fc_ai := JsString ""; fc_user := JsString ""; fc_match := false |} ∧
  sc_ai (d_sdx (details (calculateAccuracy_object
    (mkCodes JsNull (JsBoolean false) (FPrim (JsString "I10")) (FArray ["99213"]) (JsNumber 0))
    (mkCodes JsUndefined (JsString "K21.9") (FArray ["I10"]) (FPrim JsNull) (JsString ""))))) =
    [].
Proof. split; reflexivity. Qed.

Lemma scalar_denominator_comm (a u : string) :
  scalar_denominator a u = scalar_denominator u a.
Proof.
  unfold scalar_denominator.
  by rewrite (bool_decide_ext (a = "" ∧ u = "") (u = "" ∧ a = "")) by tauto.
Qed.

Lemma scalar_numerator_comm (a u : string) :
  scalar_numerator a u = scalar_numerator u a.
Proof.
  unfold scalar_numerator.
  rewrite (bool_decide_ext (a = "" ∧ u = "") (u = "" ∧ a = "")) by tauto.
  by rewrite (bool_decide_ext (a = u) (u = a)) by (split; congruence).
Qed.

Lemma union_cardinality_comm (a u : list string) :
  union_cardinality a u = union_cardinality u a.
Proof. unfold union_cardinality. by rewrite (comm_L (∪)). Qed.

Lemma intersection_cardinality_comm (a u : list string) :
  intersection_cardinality a u = intersection_cardinality u a.
Proof. unfold intersection_cardinality. by rewrite (comm_L (∩)). Qed.

(** Exchanging the two results exchanges [additions] and [removals]
    of each list field, keeps the codes of [matches] and keeps the
    denominator. *)
Theorem exchanging_the_results (ai user : CodingResult.t) :
  let a := CodingResult.to_object ai in
  let u := CodingResult.to_object user in
  let d := details (calculateAccuracy_object a u) in
  let d' := details (calculateAccuracy_object u a) in
  (sc_additions (d_sdx d') = sc_removals (d_sdx d) ∧
   sc_removals (d_sdx d') = sc_additions (d_sdx d) ∧
   ∀ x, x ∈ sc_matches (d_sdx d') ↔ x ∈ sc_matches (d_sdx d)) ∧
  (sc_additions (d_cpt d') = sc_removals (d_cpt d) ∧
   sc_removals (d_cpt d') = sc_additions (d_cpt d) ∧
   ∀ x, x ∈ sc_matches (d_cpt d') ↔ x ∈ sc_matches (d_cpt d)) ∧
  totalFields (after_cpt u a) = totalFields (after_cpt a u).
Proof.
  intros a u d d'. subst a u d d'. rewrite !final_sdx, !final_cpt, !totalFields_sum.
  cbn [CodingResult.to_object sdx cpt array_or_empty compare_lists
       sc_additions sc_removals sc_matches].
  split; [|split].
  - split; [done|]. split; [done|]. intros x. rewrite !list_elem_of_filter. tauto.
  - split; [done|]. split; [done|]. intros x. rewrite !list_elem_of_filter. tauto.
  - rewrite (scalar_denominator_comm (CodingResult.admit_dx user)),
      (scalar_denominator_comm (CodingResult.pdx user)),
      (scalar_denominator_comm (CodingResult.modifier user)),
      (union_cardinality_comm (CodingResult.sdx user)),
      (union_cardinality_comm (CodingResult.cpt user)). reflexivity.
Qed.

(** Each list comparison splits its two sequences: every entry of the
    AI sequence goes to [matches] or to [removals] and to one only, so
    that the two lists together are a rearrangement of the AI
    sequence; every code of the user sequence is in [matches] or in
    [additions] and not in both. *)
Theorem comparison_splits_the_sequences (ai user : CodingResult.t) :
  let d := details (calculateAccuracy_object (CodingResult.to_object ai)
                                             (CodingResult.to_object user)) in
  (sc_matches (d_sdx d) ++ sc_removals (d_sdx d) ≡ₚ CodingResult.sdx ai ∧
   (∀ x, x ∈ sc_matches (d_sdx d) → x ∉ sc_removals (d_sdx d)) ∧
   (∀ x, x ∈ CodingResult.sdx user ↔
         x ∈ sc_matches (d_sdx d) ∨ x ∈ sc_additions (d_sdx d)) ∧
   (∀ x, x ∈ sc_matches (d_sdx d) → x ∉ sc_additions (d_sdx d))) ∧
  (sc_matches (d_cpt d) ++ sc_removals (d_cpt d) ≡ₚ CodingResult.cpt ai ∧
   (∀ x, x ∈ sc_matches (d_cpt d) → x ∉ sc_removals (d_cpt d)) ∧
   (∀ x, x ∈ CodingResult.cpt user ↔
         x ∈ sc_matches (d_cpt d) ∨ x ∈ sc_additions (d_cpt d)) ∧
   (∀ x, x ∈ sc_matches (d_cpt d) → x ∉ sc_additions (d_cpt d))).
Proof.
  assert (P : ∀ a u : list string,
    let c := compare_lists a u in
    sc_matches c ++ sc_removals c ≡ₚ a ∧
    (∀ x, x ∈ sc_matches c → x ∉ sc_removals c) ∧
    (∀ x, x ∈ u ↔ x ∈ sc_matches c ∨ x ∈ sc_additions c) ∧
    (∀ x, x ∈ sc_matches c → x ∉ sc_additions c)).
  { intros a u. cbn. split; [apply filter_app_complement|].
    split; [|split]; intros x; rewrite !list_elem_of_filter.
    - tauto.
    - destruct (decide (x ∈ a)); tauto.
    - tauto. }
  intros d. subst d. rewrite final_sdx, final_cpt.
  cbn [CodingResult.to_object sdx cpt array_or_empty]. split; apply P.
Qed.

Lemma percentage_of_equal_counters (st st' : Locals) :
  totalFields st = totalFields st' → correctFields st = correctFields st' →
  percentage (result_of st) = percentage (result_of st').
Proof. intros Ht Hc. rewrite !percentage_result_of, Ht, Hc. reflexivity. Qed.

Lemma union_cardinality_same_codes (a a' u u' : list string) :
  (∀ x, x ∈ a ↔ x ∈ a') → (∀ x, x ∈ u ↔ x ∈ u') →
  union_cardinality a u = union_cardinality a' u'.
Proof.
  intros Ha Hu. unfold union_cardinality. f_equal. apply set_eq. intros x.
  rewrite !elem_of_union, !elem_of_list_to_set, Ha, Hu. done.
Qed.

Lemma matches_length_reordered (a a' u u' : list string) :
  a ≡ₚ a' → (∀ x, x ∈ u ↔ x ∈ u') →
  length (filter (λ code, code ∈ u) a) = length (filter (λ code, code ∈ u') a').
Proof.
  intros Ha Hu. rewrite (list_filter_iff (λ code, code ∈ u) (λ code, code ∈ u') a) by done.
  apply Permutation_length. by rewrite Ha.
Qed.

(** The score does not depend on the order of the codes, nor on how
    often the user sequences repeat a code: reordering the AI
    sequences and replacing the user sequences by sequences of the
    same codes leaves the two counters and the percentage as they
    are. *)
Theorem score_ignores_order (ai ai' user user' : CodingResult.t) :
  reordered ai ai' → same_code_sets user user' →
  let st := after_cpt (CodingResult.to_object ai) (CodingResult.to_object user) in
  let st' := after_cpt (CodingResult.to_object ai') (CodingResult.to_object user') in
  totalFields st = totalFields st' ∧
  correctFields st = correctFields st' ∧
  percentage (calculateAccuracy_object (CodingResult.to_object ai)
                                       (CodingResult.to_object user)) =
  percentage (calculateAccuracy_object (CodingResult.to_object ai')
                                       (CodingResult.to_object user')).
Proof.
  intros (Ea & Ep & Em & Ps & Pc) (Ea' & Ep' & Em' & Ss & Sc) st st'.
  assert (Ht : totalFields st = totalFields st').
  { subst st st'. rewrite !totalFields_sum, Ea, Ep, Em, Ea', Ep', Em'.
    rewrite (union_cardinality_same_codes (CodingResult.sdx ai) (CodingResult.sdx ai')
               (CodingResult.sdx user) (CodingResult.sdx user'))
      by (done || (intros x; by rewrite Ps)).
    rewrite (union_cardinality_same_codes (CodingResult.cpt ai) (CodingResult.cpt ai')
               (CodingResult.cpt user) (CodingResult.cpt user'))
      by (done || (intros x; by rewrite Pc)).
    reflexivity. }
  assert (Hc : correctFields st = correctFields st').
  { subst st st'. rewrite !correctFields_sum, Ea, Ep, Em, Ea', Ep', Em'.
    rewrite (matches_length_reordered (CodingResult.sdx ai) (CodingResult.sdx ai')
               (CodingResult.sdx user) (CodingResult.sdx user')) by done.
    rewrite (matches_length_reordered (CodingResult.cpt ai) (CodingResult.cpt ai')
               (CodingResult.cpt user) (CodingResult.cpt user')) by done.
    reflexivity. }
  split; [done|]. split; [done|]. by apply percentage_of_equal_counters.
Qed.

Lemma score_ignores_order_witness :
  percentage (calculateAccuracy_object
    (CodingResult.to_object (CodingResult.mk "K21.9" "" ["I10"; "E78.5"] [] ""))
    (CodingResult.to_object (CodingResult.mk "K21.9" "" ["E78.5"] [] ""))) =
  percentage (calculateAccuracy_object
    (CodingResult.to_object (CodingResult.mk "K21.9" "" ["E78.5"; "I10"] [] ""))
    (CodingResult.to_object (CodingResult.mk "K21.9" "" ["E78.5"; "E78.5"] [] ""))).
Proof.
  apply (score_ignores_order
           (CodingResult.mk "K21.9" "" ["I10"; "E78.5"] [] "")
           (CodingResult.mk "K21.9" "" ["E78.5"; "I10"] [] "")
           (CodingResult.mk "K21.9" "" ["E78.5"] [] "")
           (CodingResult.mk "K21.9" "" ["E78.5"; "E78.5"] [] "")).
  - repeat split; cbn; [apply perm_swap | reflexivity].
  - repeat split; cbn; try done; rewrite !elem_of_cons; tauto.
Defined.

(** Where no sequence lists a code twice, the score is symmetric:
    exchanging the AI result and the user result leaves the two
    counters and the percentage as they are. *)
Theorem score_symmetric_without_repeats (ai user : CodingResult.t) :
  NoDup (CodingResult.sdx ai) → NoDup (CodingResult.cpt ai) →
  NoDup (CodingResult.sdx user) → NoDup (CodingResult.cpt user) →
  let a := CodingResult.to_object ai in
  let u := CodingResult.to_object user in
  totalFields (after_cpt a u) = totalFields (after_cpt u a) ∧
  correctFields (after_cpt a u) = correctFields (after_cpt u a) ∧
  percentage (calculateAccuracy_object a u) = percentage (calculateAccuracy_object u a).
Proof.
  intros Has Hac Hus Huc a u. subst a u.
  assert (Ht : totalFields (after_cpt (CodingResult.to_object ai) (CodingResult.to_object user)) =
               totalFields (after_cpt (CodingResult.to_object user) (CodingResult.to_object ai))).
  { rewrite !totalFields_sum.
    rewrite (scalar_denominator_comm (CodingResult.admit_dx user)),
      (scalar_denominator_comm (CodingResult.pdx user)),
      (scalar_denominator_comm (CodingResult.modifier user)),
      (union_cardinality_comm (CodingResult.sdx user)),
      (union_cardinality_comm (CodingResult.cpt user)). reflexivity. }
  assert (Hc : correctFields (after_cpt (CodingResult.to_object ai) (CodingResult.to_object user)) =
               correctFields (after_cpt (CodingResult.to_object user) (CodingResult.to_object ai))).
  { rewrite !correctFields_sum, !matches_length_NoDup by done.
    rewrite (scalar_numerator_comm (CodingResult.admit_dx user)),
      (scalar_numerator_comm (CodingResult.pdx user)),
      (scalar_numerator_comm (CodingResult.modifier user)),
      (intersection_cardinality_comm (CodingResult.sdx user)),
      (intersection_cardinality_comm (CodingResult.cpt user)). reflexivity. }
  split; [done|]. split; [done|]. by apply percentage_of_equal_counters.
Qed.

Lemma NoDup_one_code : NoDup ["E78.5"].
Proof. apply (bool_decide_unpack _). vm_compute. exact I. Defined.

Lemma score_symmetric_without_repeats_witness :
  percentage (calculateAccuracy_object
    (CodingResult.to_object (CodingResult.mk "K21.9" "" ["I10"; "E78.5"] [] ""))
    (CodingResult.to_object (CodingResult.mk "K44.9" "" ["E78.5"] [] ""))) =
  percentage (calculateAccuracy_object
    (CodingResult.to_object (CodingResult.mk "K44.9" "" ["E78.5"] [] ""))
    (CodingResult.to_object (CodingResult.mk "K21.9" "" ["I10"; "E78.5"] [] ""))).
Proof.
  apply (score_symmetric_without_repeats
           (CodingResult.mk "K21.9" "" ["I10"; "E78.5"] [] "")
           (CodingResult.mk "K44.9" "" ["E78.5"] [] "")
           NoDup_two_codes (NoDup_nil_2 (A:=string))
           NoDup_one_code (NoDup_nil_2 (A:=string))).
Defined.

(** ** Normalisation as the inverse of joining *)

Lemma split_separator_free_piece sep (p : string) :
  sep ∉ list_ascii_of_string p → split sep p = [p].
Proof.
  induction p as [|c p IH]; [done|]. cbn. rewrite not_elem_of_cons. intros [N Hp].
  destruct (Ascii.eqb_spec c sep) as [-> | _]; [done|]. by rewrite IH.
Qed.

Lemma split_app_separator sep (p rest : string) :
  sep ∉ list_ascii_of_string p →
  split sep (p +:+ String sep rest) = p :: split sep rest.
Proof.
  induction p as [|c p IH].
  - intros _. rewrite app_empty_l. cbn [split]. by rewrite Ascii.eqb_refl.
  - cbn [list_ascii_of_string]. rewrite not_elem_of_cons. intros [N Hp].
    rewrite app_String. cbn [split].
    destruct (Ascii.eqb_spec c sep) as [-> | _]; [done|]. by rewrite IH.
Qed.

(** Splitting undoes joining, for pieces that do not hold the
    separator. *)
Lemma split_join sep (parts : list string) :
  parts ≠ [] → Forall (λ p, sep ∉ list_ascii_of_string p) parts →
  split sep (join sep parts) = parts.
Proof.
  induction parts as [|p ps IH]; [done|]. intros _ Hall.
  inversion Hall as [|? ? Hp Hps]; subst.
  destruct ps as [|q qs].
  - cbn. by apply split_separator_free_piece.
  - change (join sep (p :: q :: qs)) with (p +:+ String sep (join sep (q :: qs))).
    rewrite split_app_separator by done. by rewrite IH.
Qed.

Lemma whitespace_only_cons c (s : string) :
  whitespace_only (String c s) ↔ is_whitespace c = true ∧ whitespace_only s.
Proof.
  unfold whitespace_only. cbn. split.
  - intros H. split; [apply H; left | intros c' Hc'; apply H; by right].
  - intros [Hc Hs] c' Hin. apply elem_of_cons in Hin as [-> | Hin]; auto.
Qed.

Lemma trimStart_whitespace (l s : string) :
  whitespace_only l → trimStart (l +:+ s) = trimStart s.
Proof.
  induction l as [|c l IH]; [done|]. rewrite whitespace_only_cons. intros [Hc Hl].
  rewrite app_String. cbn. by rewrite Hc, IH.
Qed.

Lemma trimStart_no_leading (t : string) :
  (∀ c t', t = String c t' → is_whitespace c = false) → trimStart t = t.
Proof. destruct t as [|c t]; [done|]. intros H. cbn. by rewrite (H c t). Qed.

Lemma trimEnd_whitespace_only (r : string) : whitespace_only r → trimEnd r = "".
Proof.
  induction r as [|c r IH]; [done|]. rewrite whitespace_only_cons. intros [Hc Hr].
  cbn. by rewrite IH, Hc.
Qed.

Lemma trimEnd_whitespace (t r : string) :
  whitespace_only r → trimEnd (t +:+ r) = trimEnd t.
Proof.
  intros Hr. induction t as [|c t IH].
  - cbn. by apply trimEnd_whitespace_only.
  - rewrite app_String. cbn. by rewrite IH.
Qed.

Lemma trimEnd_no_trailing (t : string) :
  (∀ c t', t = t' +:+ String c "" → is_whitespace c = false) → trimEnd t = t.
Proof.
  induction t as [|c t IH]; [done|]. intros H. cbn [trimEnd].
  destruct t as [|d t].
  - cbn. by rewrite (H c "").
  - rewrite IH; [done|]. intros c' t' E. apply (H c' (String c t')).
    by rewrite app_String, <- E.
Qed.

(** [trim] gives the one string that is its argument without the
    whitespace at the two ends. *)
Lemma trim_unique (p t : string) : is_trim_of p t → trim p = t.
Proof.
  intros (l & r & -> & Hl & Hr & Hfirst & Hlast). unfold trim.
  rewrite trimStart_whitespace by done.
  destruct t as [|c t].
  - cbn [String.append]. rewrite app_empty_l.
    destruct (trimStart_spec r) as (l' & E & Hl' & _).
    apply trimEnd_whitespace_only. intros c Hc. apply Hr.
    rewrite E. clear -Hc. induction l' as [|d l' IH]; [done|].
    rewrite app_String. cbn. by right.
  - rewrite app_String, trimStart_no_leading.
    + rewrite <- app_String, trimEnd_whitespace by done. by apply trimEnd_no_trailing.
    + intros c' t' [= <- _]. by apply (Hfirst c t).
Qed.

Lemma whitespace_only_forallb (s : string) :
  forallb is_whitespace (list_ascii_of_string s) = true → whitespace_only s.
Proof.
  induction s as [|c s IH]; cbn.
  - intros _ c Hc. by apply elem_of_nil in Hc.
  - intros [Hc Hs]%andb_true_iff. apply whitespace_only_cons. auto.
Qed.

(** A decomposition checked by computation is a trimming. *)
Lemma is_trim_of_intro (l t r : string) :
  forallb is_whitespace (list_ascii_of_string l) = true →
  forallb is_whitespace (list_ascii_of_string r) = true →
  trim t = t →
  is_trim_of (l +:+ t +:+ r) t.
Proof.
  intros Hl Hr Ht. exists l, r. split; [done|].
  split; [by apply whitespace_only_forallb|]. split; [by apply whitespace_only_forallb|].
  destruct (trim_is_trim_of t) as (_ & _ & _ & _ & _ & H). by rewrite Ht in H.
Qed.

Lemma whitespace_only_no_comma (s : string) :
  whitespace_only s → comma ∉ list_ascii_of_string s.
Proof. intros H Hin. by specialize (H _ Hin). Qed.

Lemma list_ascii_of_string_app (s t : string) :
  list_ascii_of_string (s +:+ t) = (list_ascii_of_string s ++ list_ascii_of_string t)%list.
Proof. induction s as [|c s IH]; [done|]. rewrite app_String. cbn. by rewrite IH. Qed.

Lemma join_empty sep (parts : list string) :
  join sep parts = "" → parts = [] ∨ parts = [""].
Proof.
  destruct parts as [|p [|q qs]]; [by left | cbn; intros ->; by right |].
  change (join sep (p :: q :: qs)) with (p +:+ String sep (join sep (q :: qs))).
  destruct p; discriminate.
Qed.

(** The normalisation recovers a list of codes from its comma-joined
    text: when each piece between two commas is a code with whitespace
    around it, the code being neither empty nor holding a comma, the
    normalised value of the joined text is the list of the codes. *)
Theorem normalisation_recovers_joined_codes (pieces codes : list string) :
  Forall2 (λ piece code, is_trim_of piece code ∧ code ≠ "" ∧
                         comma ∉ list_ascii_of_string code) pieces codes →
  normalize_list_field (FPrim (JsString (join comma pieces))) = FArray codes.
Proof.
  intros H.
  assert (Hfree : Forall (λ p, comma ∉ list_ascii_of_string p) pieces).
  { induction H as [|piece code ps cs ((l & r & -> & Hl & Hr & _) & _ & Hc) _ IH]; constructor; [|done].
    rewrite !list_ascii_of_string_app, !elem_of_app.
    intros [? | [? | ?]]; [by apply (whitespace_only_no_comma l) | done
                          | by apply (whitespace_only_no_comma r)]. }
  assert (Htrim : filter (λ p, truthy (JsString p)) (map trim pieces) = codes).
  { clear Hfree. induction H as [|piece code ps cs (Ht & Hne & _) _ IH]; [done|].
    cbn [map]. rewrite (trim_unique _ _ Ht), filter_cons_True by by apply truthy_string_nonempty.
    by rewrite IH. }
  destruct pieces as [|p ps].
  - inversion H; subst. reflexivity.
  - unfold normalize_list_field.
    destruct (join comma (p :: ps)) as [|c s] eqn:E.
    + apply join_empty in E as [E | E]; [done|]. injection E as -> ->.
      inversion H as [|? code ? ? ((l & r & El & _) & Hne & _) Hrest]; subst.
      destruct l; [|discriminate]. destruct code; [done | discriminate].
    + cbn [field_truthy truthy String.eqb negb]. rewrite <- E, split_join by done.
      rewrite <- Htrim. reflexivity.
Qed.

Lemma normalisation_recovers_joined_codes_witness :
  normalize_list_field (FPrim (JsString (join comma [" 45378"; "43235 "]))) =
  FArray ["45378"; "43235"].
Proof.
  apply (normalisation_recovers_joined_codes [" 45378"; "43235 "] ["45378"; "43235"]).
  constructor; [|constructor; [|constructor]].
  - split; [apply (is_trim_of_intro " " "45378" ""); reflexivity|].
    split; [discriminate|]. apply (bool_decide_unpack _). vm_compute. exact I.
  - split; [apply (is_trim_of_intro "" "43235" " "); reflexivity|].
    split; [discriminate|]. apply (bool_decide_unpack _). vm_compute. exact I.
Defined.

(** Normalising a string always gives an array, and every code in it
    is clean: not empty, without whitespace at its two ends and
    without a comma. *)
Theorem normalised_codes_are_clean (s : string) :
  ∃ codes : list string,
    normalize_list_field (FPrim (JsString s)) = FArray codes ∧
    Forall (λ code, code ≠ "" ∧ trimmed code ∧ comma ∉ list_ascii_of_string code) codes.
Proof.
  destruct s as [|c s].
  - exists []. split; [reflexivity | constructor].
  - eexists. split; [reflexivity|].
    apply Forall_forall. intros code Hin.
    apply list_elem_of_filter in Hin as [Hne Hin].
    apply list_elem_of_fmap in Hin as (piece & -> & Hpiece).
    split; [by apply truthy_string_nonempty|].
    destruct (trim_is_trim_of piece) as (l & r & E & _ & _ & Htrimmed).
    split; [done|]. intros Hcomma.
    pose proof (split_separator_free comma (String c s)) as Hfree.
    rewrite Forall_forall in Hfree. apply (Hfree piece Hpiece).
    rewrite E, !list_ascii_of_string_app, !elem_of_app. auto.
Qed.

(** ** Public URLs *)

Lemma nonempty_true (s : string) : nonempty s = true ↔ s ≠ "".
Proof. destruct s; cbn; split; (done || congruence). Qed.

Lemma nonempty_false (s : string) : nonempty s = false ↔ s = "".
Proof. destruct s; cbn; split; (done || congruence). Qed.

Lemma nonempty_app_r (s t : string) : nonempty t = true → nonempty (s +:+ t) = true.
Proof. destruct s; [done|]. intros _. reflexivity. Qed.

Lemma strip_trailing_slash_app (e : string) : strip_trailing_slash (e +:+ "/") = e.
Proof.
  induction e as [|c e IH]; [reflexivity|].
  rewrite app_String. cbn [strip_trailing_slash].
  destruct (e +:+ "/") as [|d r] eqn:E; [destruct e; discriminate|]. by rewrite IH.
Qed.

Lemma strip_trailing_slash_id (e : string) :
  (∀ e', e ≠ e' +:+ "/") → strip_trailing_slash e = e.
Proof.
  induction e as [|c e IH]; [done|]. intros H. cbn [strip_trailing_slash].
  destruct e as [|d e].
  - destruct (Ascii.eqb_spec c "/") as [-> | _]; [|done]. by destruct (H "").
  - rewrite IH; [done|]. intros e' E. apply (H (String c e')). by rewrite app_String, <- E.
Qed.

Lemma strip_trailing_slash_empty (e : string) :
  strip_trailing_slash e = "" ↔ e = "" ∨ e = "/".
Proof.
  split.
  - destruct e as [|c [|d e]]; cbn; [by left | |].
    + destruct (Ascii.eqb_spec c "/") as [-> | _]; [by right | done].
    + discriminate.
  - intros [-> | ->]; reflexivity.
Qed.

(** The endpoint is unusable exactly when the variable is not set, is
    empty or is a single slash. *)
Lemma endpoint_unusable (env : Env) :
  key_truthy (S3_ENDPOINT env) = false ↔
  S3_ENDPOINT_URL env = None ∨ S3_ENDPOINT_URL env = Some "" ∨ S3_ENDPOINT_URL env = Some "/".
Proof.
  unfold S3_ENDPOINT. destruct (S3_ENDPOINT_URL env) as [e|]; [|by split; [left|]].
  destruct (nonempty e) eqn:E.
  - cbn [key_truthy]. rewrite nonempty_false, strip_trailing_slash_empty.
    apply nonempty_true in E. split.
    + intros [-> | ->]; [done | by right; right].
    + intros [? | [[= ->] | [= ->]]]; [done | done | by right].
  - apply nonempty_false in E as ->. split; [by right; left | done].
Qed.

Lemma S3_BUCKET_nonempty (env : Env) : S3_BUCKET env ≠ "".
Proof.
  unfold S3_BUCKET. destruct (S3_BUCKET_NAME env) as [b|]; [|done].
  destruct (nonempty b) eqn:E; [by apply nonempty_true | done].
Qed.

Lemma getS3PublicUrl_cases (env : Env) (key : option string) :
  (getS3PublicUrl env key = None ↔
     key_truthy key = false ∨ key_truthy (S3_ENDPOINT env) = false) ∧
  (∀ url, getS3PublicUrl env key = Some url →
     ∃ e k, key = Some k ∧ k ≠ "" ∧ S3_ENDPOINT env = Some e ∧ e ≠ "" ∧
            S3_BUCKET env ≠ "" ∧
            url = e +:+ "/" +:+ S3_BUCKET env +:+ "/" +:+ k).
Proof.
  unfold getS3PublicUrl. destruct key as [k|]; cbn [key_truthy].
  - destruct (nonempty k) eqn:Ek.
    + destruct (S3_ENDPOINT env) as [e|]; cbn [key_truthy].
      * destruct (nonempty e) eqn:Ee.
        -- split; [split; [done | intros [? | ?]; done]|].
           intros url [= <-]. exists e, k.
           apply nonempty_true in Ek, Ee. pose proof (S3_BUCKET_nonempty env). done.
        -- split; [split; [by right | done] | done].
      * split; [split; [by right | done] | done].
    + split; [split; [by left | done] | done].
  - split; [split; [by left | done] | done].
Qed.




(** A slash at the end of the configured endpoint changes no URL: an
    endpoint that does not end with a slash and the same endpoint with
    a slash added give the same URL for every key. *)
Theorem endpoint_trailing_slash_ignored (e : string)
    (bucket access secret key : option string) :
  (∀ e', e ≠ e' +:+ "/") →
  getS3PublicUrl (mkEnv (Some (e +:+ "/")) bucket access secret) key =
  getS3PublicUrl (mkEnv (Some e) bucket access secret) key.
Proof.
  intros H. unfold getS3PublicUrl, S3_ENDPOINT, S3_BUCKET. cbn [S3_ENDPOINT_URL S3_BUCKET_NAME].
  rewrite nonempty_app_r by done. rewrite strip_trailing_slash_app.
  destruct (nonempty e) eqn:E.
  - rewrite strip_trailing_slash_id by done. reflexivity.
  - apply nonempty_false in E as ->. destruct key as [k|]; [|done].
    destruct (nonempty k); reflexivity.
Qed.

Lemma string_length_app (s t : string) :
  String.length (s +:+ t) = (String.length s + String.length t)%nat.
Proof. induction s as [|c s IH]; [done|]. rewrite app_String. cbn. by rewrite IH. Qed.

Lemma no_trailing_slash_intro (e : string) :
  strip_trailing_slash e = e → ∀ e', e ≠ e' +:+ "/".
Proof.
  intros H e' ->. rewrite strip_trailing_slash_app in H.
  apply (f_equal String.length) in H. rewrite string_length_app in H. cbn in H. lia.
Qed.

Lemma endpoint_trailing_slash_ignored_witness :
  getS3PublicUrl (mkEnv (Some ("https://s3.example" +:+ "/")) None None None) (Some "k") =
  getS3PublicUrl (mkEnv (Some "https://s3.example") None None None) (Some "k").
Proof.
  apply (endpoint_trailing_slash_ignored "https://s3.example" None None None (Some "k")).
  apply no_trailing_slash_intro. reflexivity.
Defined.

(** In the response of [buildS3Response] the single key and URL of a
    report are those of the first document: the key is the first of
    the keys, the URL is the public URL of that key, and it is the
    first of the URLs whenever that key is not empty.  The URLs are
    the public URLs of the keys that have one, in the order of the
    keys, so there are never more URLs than keys. *)
Theorem s3_response_consistent (env : Env) (hp op : DocKeys) (hs os : option string) :
  let r := buildS3Response env hp op hs os in
  (s3_hp_doc_key r = head (s3_hp_doc_keys r) ∧
   s3_hp_doc_url r = getS3PublicUrl env (s3_hp_doc_key r) ∧
   s3_hp_doc_urls r = omap (λ key, getS3PublicUrl env (Some key)) (s3_hp_doc_keys r) ∧
   (length (s3_hp_doc_urls r) ≤ length (s3_hp_doc_keys r))%nat ∧
   (∀ key, s3_hp_doc_key r = Some key → key ≠ "" →
           s3_hp_doc_url r = head (s3_hp_doc_urls r))) ∧
  (s3_op_doc_key r = head (s3_op_doc_keys r) ∧
   s3_op_doc_url r = getS3PublicUrl env (s3_op_doc_key r) ∧
   s3_op_doc_urls r = omap (λ key, getS3PublicUrl env (Some key)) (s3_op_doc_keys r) ∧
   (length (s3_op_doc_urls r) ≤ length (s3_op_doc_keys r))%nat ∧
   (∀ key, s3_op_doc_key r = Some key → key ≠ "" →
           s3_op_doc_url r = head (s3_op_doc_urls r))).
Proof.
  assert (U : ∀ key, match getS3PublicUrl env (Some key) with
                     | Some u => if nonempty u then Some u else None
                     | None => None
                     end = getS3PublicUrl env (Some key)).
  { intros key. destruct (getS3PublicUrl env (Some key)) as [u|] eqn:E; [|done].
    apply (proj2 (getS3PublicUrl_cases env (Some key))) in E
      as (e & k & _ & _ & _ & He & _ & ->).
    destruct e; [done | reflexivity]. }
  assert (P : ∀ keys : list string,
    filter_Boolean (map (λ key, getS3PublicUrl env (Some key)) keys) =
      omap (λ key, getS3PublicUrl env (Some key)) keys).
  { induction keys as [|k keys IH]; [done|].
    change (filter_Boolean (map (λ key, getS3PublicUrl env (Some key)) (k :: keys)))
      with (match (match getS3PublicUrl env (Some k) with
                   | Some u => if nonempty u then Some u else None
                   | None => None
                   end) with
            | Some u => u :: filter_Boolean (map (λ key, getS3PublicUrl env (Some key)) keys)
            | None => filter_Boolean (map (λ key, getS3PublicUrl env (Some key)) keys)
            end).
    rewrite U, IH. reflexivity. }
  assert (L : ∀ keys : list string,
    (length (omap (λ key, getS3PublicUrl env (Some key)) keys) ≤ length keys)%nat).
  { induction keys as [|k keys IH]; [done|].
    change (omap (λ key, getS3PublicUrl env (Some key)) (k :: keys))
      with (match getS3PublicUrl env (Some k) with
            | Some u => u :: omap (λ key, getS3PublicUrl env (Some key)) keys
            | None => omap (λ key, getS3PublicUrl env (Some key)) keys
            end).
    destruct (getS3PublicUrl env (Some k)); cbn [length]; lia. }
  assert (Q : ∀ keys : list string,
    (match keys with key :: _ => getS3PublicUrl env (Some key) | [] => None end
       = getS3PublicUrl env (head keys)) ∧
    ∀ key, head keys = Some key → key ≠ "" →
      getS3PublicUrl env (head keys) =
        head (omap (λ key, getS3PublicUrl env (Some key)) keys)).
  { intros [|k keys]; [done|]. split; [done|]. intros key [= ->] Hne.
    cbn [head].
    change (omap (λ key, getS3PublicUrl env (Some key)) (key :: keys))
      with (match getS3PublicUrl env (Some key) with
            | Some u => u :: omap (λ key, getS3PublicUrl env (Some key)) keys
            | None => omap (λ key, getS3PublicUrl env (Some key)) keys
            end).
    destruct (getS3PublicUrl env (Some key)) as [u|] eqn:E; [done|].
    apply (proj1 (getS3PublicUrl_cases env (Some key))) in E as [E | E].
    - cbn in E. apply nonempty_false in E. done.
    - clear L P U. induction keys as [|k' keys IH]; [done|].
      change (omap (λ key, getS3PublicUrl env (Some key)) (k' :: keys))
        with (match getS3PublicUrl env (Some k') with
              | Some u => u :: omap (λ key, getS3PublicUrl env (Some key)) keys
              | None => omap (λ key, getS3PublicUrl env (Some key)) keys
              end).
      assert (getS3PublicUrl env (Some k') = None) as ->; [|done].
      apply getS3PublicUrl_cases. by right. }
  intros r. subst r.
  cbn [buildS3Response s3_hp_doc_key s3_hp_doc_keys s3_hp_doc_url s3_hp_doc_urls
       s3_op_doc_key s3_op_doc_keys s3_op_doc_url s3_op_doc_urls].
  rewrite !P.
  destruct (Q (ensure_array hp)) as [Q1 Q2], (Q (ensure_array op)) as [Q3 Q4].
  rewrite Q1, Q3. repeat split; auto.
Qed.

Lemma s3_response_consistent_witness :
  s3_hp_doc_url (buildS3Response (mkEnv (Some "https://s3.example") None None None)
                   (KeysArray ["d/hp_document_1.jpg"; "d/hp_document_2.jpg"])
                   (KeysValue None) None None) =
  head (s3_hp_doc_urls (buildS3Response (mkEnv (Some "https://s3.example") None None None)
                   (KeysArray ["d/hp_document_1.jpg"; "d/hp_document_2.jpg"])
                   (KeysValue None) None None)).
Proof.
  apply (s3_response_consistent (mkEnv (Some "https://s3.example") None None None)
           (KeysArray ["d/hp_document_1.jpg"; "d/hp_document_2.jpg"])
           (KeysValue None) None None) with "d/hp_document_1.jpg";
    [reflexivity | discriminate].
Defined.

(** With the endpoint variable not set, empty or a single slash, the
    response carries no URL at all, and still carries every key it was
    given. *)
Theorem s3_response_without_endpoint (env : Env) (hp op : DocKeys) (hs os : option string) :
  S3_ENDPOINT_URL env = None ∨ S3_ENDPOINT_URL env = Some "" ∨ S3_ENDPOINT_URL env = Some "/" →
  let r := buildS3Response env hp op hs os in
  s3_hp_doc_url r = None ∧ s3_op_doc_url r = None ∧
  s3_hp_doc_urls r = [] ∧ s3_op_doc_urls r = [] ∧
  s3_hp_summary_url r = None ∧ s3_op_summary_url r = None ∧
  s3_hp_doc_keys r = ensure_array hp ∧ s3_op_doc_keys r = ensure_array op ∧
  s3_hp_summary_key r = hs ∧ s3_op_summary_key r = os.
Proof.
  intros H%endpoint_unusable r.
  assert (N : ∀ key, getS3PublicUrl env key = None).
  { intros key. apply getS3PublicUrl_cases. by right. }
  assert (E : ∀ keys : list string,
    filter_Boolean (map (λ key, getS3PublicUrl env (Some key)) keys) = []).
  { induction keys as [|k keys IH]; [done|].
    change (filter_Boolean (map (λ key, getS3PublicUrl env (Some key)) (k :: keys)))
      with (match (match getS3PublicUrl env (Some k) with
                   | Some u => if nonempty u then Some u else None
                   | None => None
                   end) with
            | Some u => u :: filter_Boolean (map (λ key, getS3PublicUrl env (Some key)) keys)
            | None => filter_Boolean (map (λ key, getS3PublicUrl env (Some key)) keys)
            end).
    by rewrite N, IH. }
  subst r.
  cbn [buildS3Response s3_hp_doc_key s3_hp_doc_keys s3_hp_doc_url s3_hp_doc_urls
       s3_op_doc_key s3_op_doc_keys s3_op_doc_url s3_op_doc_urls
       s3_hp_summary_url s3_op_summary_url s3_hp_summary_key s3_op_summary_key].
  rewrite !E, !N.
  repeat split; try done; by destruct (ensure_array _).
Qed.

Lemma s3_response_without_endpoint_witness :
  s3_hp_doc_urls (buildS3Response (mkEnv (Some "/") (Some "bucket") None None)
                    (KeysArray ["d/hp_document.pdf"]) (KeysValue None) None None) = [].
Proof.
  apply (s3_response_without_endpoint (mkEnv (Some "/") (Some "bucket") None None)
           (KeysArray ["d/hp_document.pdf"]) (KeysValue None) None None).
  right; right; reflexivity.
Defined.

(** ** File names *)

Lemma toLowerCase_char_dot (c : ascii) :
  Ascii.eqb (toLowerCase_char c) dot = Ascii.eqb c dot.
Proof. destruct c as [[] [] [] [] [] [] [] []]; reflexivity. Qed.

Lemma toLowerCase_char_idemp (c : ascii) :
  toLowerCase_char (toLowerCase_char c) = toLowerCase_char c.
Proof. destruct c as [[] [] [] [] [] [] [] []]; reflexivity. Qed.

Lemma toLowerCase_idemp (s : string) : toLowerCase (toLowerCase s) = toLowerCase s.
Proof. induction s as [|c s IH]; [done|]. cbn. by rewrite toLowerCase_char_idemp, IH. Qed.

Lemma toLowerCase_dot_free (s : string) :
  dot ∉ list_ascii_of_string s → dot ∉ list_ascii_of_string (toLowerCase s).
Proof.
  induction s as [|c s IH]; [done|]. cbn. rewrite !not_elem_of_cons. intros [N H].
  split; [|by apply IH]. intros E.
  pose proof (toLowerCase_char_dot c) as D. rewrite <- E, Ascii.eqb_refl in D.
  symmetry in D. apply Ascii.eqb_eq in D. congruence.
Qed.

(** Lowering the case and cutting at the dots commute. *)
Lemma split_toLowerCase (s : string) :
  split dot (toLowerCase s) = map toLowerCase (split dot s).
Proof.
  induction s as [|c s IH]; [done|]. cbn [toLowerCase split].
  rewrite toLowerCase_char_dot, IH.
  destruct (Ascii.eqb c dot); [done|]. destruct (split dot s); reflexivity.
Qed.

Lemma pop_map_toLowerCase (parts : list string) :
  pop (map toLowerCase parts) = toLowerCase (pop parts).
Proof.
  unfold pop. induction parts as [|p [|q qs] IH]; [done | done|].
  change (map toLowerCase (p :: q :: qs)) with (toLowerCase p :: map toLowerCase (q :: qs)).
  cbn [List.last] in *. exact IH.
Qed.

Lemma pop_cons (p : string) (parts : list string) :
  parts ≠ [] → pop (p :: parts) = pop parts.
Proof. destruct parts; done. Qed.

Lemma pop_elem (parts : list string) : parts ≠ [] → pop parts ∈ parts.
Proof.
  unfold pop. induction parts as [|p [|q qs] IH]; [done | intros _; by left |].
  intros _. right. by apply IH.
Qed.

Lemma pop_split_dot_free (s : string) : dot ∉ list_ascii_of_string (pop (split dot s)).
Proof.
  pose proof (split_separator_free dot s) as H. rewrite Forall_forall in H.
  apply H, pop_elem, split_nonempty.
Qed.

(** The piece after the last dot. *)
Lemma pop_split_app (base e : string) :
  pop (split dot (base +:+ String dot e)) = pop (split dot e).
Proof.
  induction base as [|c base IH].
  - rewrite app_empty_l. cbn [split]. rewrite Ascii.eqb_refl.
    apply pop_cons, split_nonempty.
  - rewrite app_String. cbn [split]. destruct (Ascii.eqb c dot).
    + rewrite pop_cons by apply split_nonempty. exact IH.
    + assert (T : ∃ p q qs, split dot (base +:+ String dot e) = p :: q :: qs).
      { clear. induction base as [|c base (p & q & qs & E)].
        - rewrite app_empty_l. cbn [split]. rewrite Ascii.eqb_refl.
          pose proof (split_nonempty dot e). destruct (split dot e) as [|q qs]; [done|].
          by eexists _, _, _.
        - rewrite app_String. cbn [split]. rewrite E.
          destruct (Ascii.eqb c dot); by eexists _, _, _. }
      destruct T as (p & q & qs & E). rewrite E in IH |- *.
      rewrite pop_cons by done. by rewrite pop_cons in IH by done.
Qed.

Lemma toLowerCase_char_lower_of (c : ascii) : lower_of c (toLowerCase_char c).
Proof. destruct c as [[] [] [] [] [] [] [] []]; vm_compute; reflexivity. Qed.

Lemma toLowerCase_char_not_upper (c : ascii) : is_upper (toLowerCase_char c) = false.
Proof. destruct c as [[] [] [] [] [] [] [] []]; vm_compute; reflexivity. Qed.

Lemma toLowerCase_lowered (s : string) : lowered s (toLowerCase s).
Proof.
  unfold lowered. induction s as [|c s IH]; cbn [toLowerCase list_ascii_of_string].
  - constructor.
  - constructor; [apply toLowerCase_char_lower_of | exact IH].
Qed.

Lemma toLowerCase_no_upper (s : string) (c : ascii) :
  c ∈ list_ascii_of_string (toLowerCase s) → is_upper c = false.
Proof.
  induction s as [|d s IH]; cbn [toLowerCase list_ascii_of_string].
  - by intros ?%elem_of_nil.
  - intros [-> | H]%elem_of_cons; [apply toLowerCase_char_not_upper | by apply IH].
Qed.

(** [getExtension] always gives a dot followed by a text without a dot
    and without a capital letter: the text after the last dot of the
    name in lower case, and the whole name in lower case when it has
    no dot. *)
Theorem getExtension_shape (filename : string) :
  (∃ e, getExtension filename = String dot e ∧
        (dot ∉ list_ascii_of_string e) ∧
        (∀ c, c ∈ list_ascii_of_string e → is_upper c = false)) ∧
  (dot ∉ list_ascii_of_string filename →
     ∃ e, getExtension filename = String dot e ∧ lowered filename e) ∧
  (∀ base ext, filename = base +:+ String dot ext → dot ∉ list_ascii_of_string ext →
     ∃ e, getExtension filename = String dot e ∧ lowered ext e).
Proof.
  unfold getExtension. split; [|split].
  - eexists. split; [reflexivity|]. split; [|apply toLowerCase_no_upper].
    apply toLowerCase_dot_free, pop_split_dot_free.
  - intros H. eexists. split; [reflexivity|].
    rewrite split_separator_free_piece by done. apply toLowerCase_lowered.
  - intros base ext -> H. eexists. split; [reflexivity|].
    rewrite pop_split_app, split_separator_free_piece by done. apply toLowerCase_lowered.
Qed.

Lemma getExtension_shape_witness :
  getExtension "scan.2024.JPG" = ".jpg" ∧
  ∃ e, getExtension ("scan.2024" +:+ String dot "JPG") = String dot e ∧ lowered "JPG" e.
Proof.
  split; [reflexivity|].
  apply (proj2 (proj2 (getExtension_shape ("scan.2024" +:+ String dot "JPG"))) "scan.2024" "JPG").
  - reflexivity.
  - apply (bool_decide_unpack _). vm_compute. exact I.
Defined.

Example lowered_extensions :
  lowered "JPG" "jpg" ∧ ¬ lowered "JPG" "JPG" ∧ lowered "tar-1" "tar-1" ∧
  getExtension "scan.JPG" = ".jpg" ∧ getExtension "Notes" = ".notes" ∧
  getExtension "a.b.Pdf" = ".pdf".
Proof.
  split; [|split; [|split]].
  - repeat constructor.
  - intros H. apply Forall2_cons_1 in H as [H _]. vm_compute in H. discriminate H.
  - repeat constructor.
  - repeat split; reflexivity.
Qed.

(** [getMimeType] depends on the name through its extension only:
    two names with the same [getExtension], whatever the case of their
    letters, have the same content type. *)
Theorem getMimeType_by_extension (f g : string) :
  getExtension f = getExtension g → getMimeType f = getMimeType g.
Proof.
  unfold getExtension, getMimeType. intros [= E].
  by rewrite !split_toLowerCase, !pop_map_toLowerCase, E.
Qed.

Lemma getMimeType_by_extension_witness :
  getMimeType "scan.JPG" = getMimeType "photo.2024.jpg".
Proof. apply (getMimeType_by_extension "scan.JPG" "photo.2024.jpg"). reflexivity. Defined.

(** [getMimeType] gives one of six content types, the last being the
    fallback, but for a name whose extension is [constructor] or
    [__proto__]: the table is an object literal, and the read then
    gives what the literal inherits, not a string. *)
Theorem getMimeType_values (filename : string) :
  (∃ t, getMimeType filename = OwnString t ∧
        t ∈ ["image/jpeg"; "image/png"; "image/gif"; "image/webp"; "application/pdf";
             "application/octet-stream"]) ∨
  (getExtension filename = ".constructor" ∧ getMimeType filename = Inherited "constructor") ∨
  (getExtension filename = ".__proto__" ∧ getMimeType filename = Inherited "__proto__").
Proof.
  unfold getMimeType, getExtension.
  rewrite split_toLowerCase, pop_map_toLowerCase.
  pose proof (toLowerCase_idemp (pop (split dot filename))) as Hlow.
  set (ext := toLowerCase (pop (split dot filename))) in *.
  unfold get_or.
  destruct (own_property mimeTypes ext) as [v|] eqn:E.
  - left. cbn in E.
    repeat (match type of E with
            | (if ?b then _ else _) = _ => destruct b
            end; [injection E as <-; eexists; split; [reflexivity|set_solver]|]).
    discriminate.
  - case_bool_decide as Hin; [|left; eexists; split; [reflexivity|set_solver]].
    unfold Object_prototype_names in Hin. rewrite !elem_of_cons in Hin.
    destruct Hin as [-> | [-> | [-> | [-> | [-> | [-> | [-> | [-> | [-> | [-> | [-> | [-> | Hin]]]]]]]]]]]];
      try discriminate Hlow; [by right; left | by right; right | by apply elem_of_nil in Hin].
Qed.

(** ** The date of service *)

Lemma string_app_assoc (a b c : string) : (a +:+ b) +:+ c = a +:+ (b +:+ c).
Proof. induction a as [|x a IH]; [done|]. by rewrite !app_String, IH. Qed.

Lemma take_digits_spec (max : nat) (s : string) :
  s = fst (take_digits max s) +:+ snd (take_digits max s) ∧
  all_digits (fst (take_digits max s)) = true ∧
  (String.length (fst (take_digits max s)) ≤ max)%nat.
Proof.
  revert s. induction max as [|m IH]; intros s; [by destruct s; repeat split; cbn; lia|].
  destruct s as [|c s]; [repeat split; cbn; lia|]. cbn [take_digits].
  destruct (is_digit c) eqn:D; [|repeat split; cbn; lia].
  destruct (IH s) as (E & A & L). destruct (take_digits m s) as [d r]. cbn [fst snd] in *.
  split; [by rewrite app_String, <- E|]. split; [cbn; by rewrite D, A | cbn; lia].
Qed.

Lemma match_date_spec (s x : string) :
  match_date s = Some x → date_shaped x ∧ ∃ post, s = x +:+ post.
Proof.
  unfold match_date.
  destruct (take_digits_spec 2 s) as (E1 & A1 & L1).
  destruct (take_digits 2 s) as [d1 r1]. cbn [fst snd] in *.
  destruct (1 <=? String.length d1)%nat eqn:M1; [|done]. apply Nat.leb_le in M1.
  destruct r1 as [|c1 r2]; [done|].
  destruct (Ascii.eqb_spec c1 "/") as [-> | N]; [|by destruct c1 as [[] [] [] [] [] [] [] []]].
  destruct (take_digits_spec 2 r2) as (E2 & A2 & L2).
  destruct (take_digits 2 r2) as [d2 r3]. cbn [fst snd] in *.
  destruct (1 <=? String.length d2)%nat eqn:M2; [|done]. apply Nat.leb_le in M2.
  destruct r3 as [|c2 r4]; [done|].
  destruct (Ascii.eqb_spec c2 "/") as [-> | N]; [|by destruct c2 as [[] [] [] [] [] [] [] []]].
  destruct (take_digits_spec 4 r4) as (E3 & A3 & L3).
  destruct (take_digits 4 r4) as [d3 r5]. cbn [fst snd] in *.
  destruct (2 <=? String.length d3)%nat eqn:M3; [|done]. apply Nat.leb_le in M3.
  intros [= <-]. split.
  - exists d1, d2, d3. repeat split; done || lia.
  - exists r5. rewrite E1, E2, E3 at 1.
    repeat first [rewrite string_app_assoc | rewrite app_String | rewrite app_empty_l].
    reflexivity.
Qed.

Lemma match_literal_spec (lit s rest : string) :
  match_literal lit s = Some rest → ∃ pre, s = pre +:+ rest.
Proof.
  revert s. induction lit as [|p lit IH]; intros s; cbn.
  - intros [= ->]. by exists "".
  - destruct s as [|c s]; [done|]. destruct (eq_ignore_case p c); [|done].
    intros (pre & ->)%IH. by exists (String c pre).
Qed.

Lemma skip_separators_spec (s : string) : ∃ pre, s = pre +:+ skip_separators s.
Proof.
  induction s as [|c s (pre & E)]; [by exists ""|]. cbn.
  destruct (is_separator c); [|by exists ""].
  exists (String c pre). by rewrite app_String, <- E.
Qed.

Lemma match_at_spec (label s x : string) :
  match_at label s = Some x → date_shaped x ∧ ∃ pre post, s = pre +:+ x +:+ post.
Proof.
  unfold match_at. destruct (match_literal label s) as [[|c rest]|] eqn:E; [done | | done].
  destruct (is_separator c); [|done]. intros [Hd (post & Hp)]%match_date_spec.
  split; [done|].
  apply match_literal_spec in E as (pre & ->).
  destruct (skip_separators_spec rest) as (seps & Hs).
  exists (pre +:+ String c seps), post.
  rewrite Hs, Hp at 1.
  repeat first [rewrite string_app_assoc | rewrite app_String | rewrite app_empty_l].
  reflexivity.
Qed.

Lemma search_spec (label s x : string) :
  search label s = Some x → date_shaped x ∧ ∃ pre post, s = pre +:+ x +:+ post.
Proof.
  induction s as [|c s IH]; cbn [search].
  - destruct (match_at label "") eqn:E; [|done]. intros [= ->]. by apply (match_at_spec label).
  - destruct (match_at label (String c s)) eqn:E.
    + intros [= ->]. by apply (match_at_spec label).
    + intros [Hd (pre & post & ->)]%IH. split; [done|]. by exists (String c pre), post.
Qed.

(** Whatever the text, [extractDateOfService] gives either the empty
    string or a date that stands in the text: one or two digits, a
    slash, one or two digits, a slash and two to four digits. *)
Theorem date_of_service_shape (text : string) :
  extractDateOfService text = "" ∨
  (date_shaped (extractDateOfService text) ∧
   ∃ pre post, text = pre +:+ extractDateOfService text +:+ post).
Proof.
  unfold extractDateOfService. destruct (nonempty text); [|by left].
  destruct (search "Date of Service" text) as [d|] eqn:E1.
  - right. by apply (search_spec "Date of Service").
  - destruct (search "DOS" text) as [d|] eqn:E2; [|by left].
    right. by apply (search_spec "DOS").
Qed.

Lemma is_digit_not_separator (c : ascii) : is_digit c = true → is_separator c = false.
Proof. destruct c as [[] [] [] [] [] [] [] []]; vm_compute; congruence. Qed.

Lemma match_literal_ignore_case (lit l rest : string) :
  toLowerCase l = toLowerCase lit → match_literal lit (l +:+ rest) = Some rest.
Proof.
  revert l. induction lit as [|p lit IH]; intros [|c l]; cbn; try done.
  intros [= Hc Hl]. rewrite app_String. unfold eq_ignore_case.
  rewrite Hc, Ascii.eqb_refl. by apply IH.
Qed.

Lemma skip_separators_app (seps s : string) :
  all_separators seps = true → starts_with_digit s = true →
  skip_separators (seps +:+ s) = s.
Proof.
  intros Hs Hd. induction seps as [|c seps IH].
  - rewrite app_empty_l. destruct s as [|d s]; [done|]. cbn in *.
    by rewrite is_digit_not_separator.
  - cbn in Hs. apply andb_true_iff in Hs as [Hc Hs]. rewrite app_String. cbn.
    rewrite Hc. by apply IH.
Qed.

Lemma take_digits_exact (max : nat) (d r : string) :
  all_digits d = true → (String.length d ≤ max)%nat →
  String.length d = max ∨ starts_with_digit r = false →
  take_digits max (d +:+ r) = (d, r).
Proof.
  revert d. induction max as [|m IH]; intros d Hd Hl Hend.
  - destruct d; [|cbn in Hl; lia]. rewrite app_empty_l. by destruct r.
  - destruct d as [|c d].
    + rewrite app_empty_l. destruct Hend as [? | Hr]; [done|].
      destruct r as [|c r]; [done|]. cbn in *. by rewrite Hr.
    + cbn in Hd. apply andb_true_iff in Hd as [Hc Hd]. rewrite app_String. cbn [take_digits].
      rewrite Hc, IH; [done | done | cbn in Hl; lia |].
      destruct Hend as [E | ?]; [left; cbn in E; lia | by right].
Qed.

Lemma match_date_exact (d1 d2 d3 post : string) :
  all_digits d1 = true → (1 ≤ String.length d1 ≤ 2)%nat →
  all_digits d2 = true → (1 ≤ String.length d2 ≤ 2)%nat →
  all_digits d3 = true → (2 ≤ String.length d3 ≤ 4)%nat →
  String.length d3 = 4 ∨ starts_with_digit post = false →
  match_date (d1 +:+ "/" +:+ d2 +:+ "/" +:+ d3 +:+ post) =
    Some (d1 +:+ "/" +:+ d2 +:+ "/" +:+ d3).
Proof.
  intros A1 L1 A2 L2 A3 L3 Hend. unfold match_date.
  rewrite (take_digits_exact 2 d1) by (done || lia || by right).
  assert ((1 <=? String.length d1)%nat = true) as -> by (apply Nat.leb_le; lia).
  rewrite app_String, app_empty_l.
  rewrite (take_digits_exact 2 d2) by (done || lia || by right).
  assert ((1 <=? String.length d2)%nat = true) as -> by (apply Nat.leb_le; lia).
  rewrite app_String, app_empty_l.
  rewrite (take_digits_exact 4 d3) by (done || lia).
  assert ((2 <=? String.length d3)%nat = true) as -> by (apply Nat.leb_le; lia).
  reflexivity.
Qed.

(** A date that follows the label is found: a text that starts with
    [Date of Service] in any case of its letters, then one or more
    colons or whitespace characters, then a date that no further digit
    follows, gives that date. *)
Theorem date_after_label_is_found (label seps d1 d2 d3 post : string) :
  toLowerCase label = "date of service" →
  seps ≠ "" → all_separators seps = true →
  all_digits d1 = true → (1 ≤ String.length d1 ≤ 2)%nat →
  all_digits d2 = true → (1 ≤ String.length d2 ≤ 2)%nat →
  all_digits d3 = true → (2 ≤ String.length d3 ≤ 4)%nat →
  String.length d3 = 4 ∨ starts_with_digit post = false →
  extractDateOfService (label +:+ seps +:+ d1 +:+ "/" +:+ d2 +:+ "/" +:+ d3 +:+ post) =
    d1 +:+ "/" +:+ d2 +:+ "/" +:+ d3.
Proof.
  intros Hl Hne Hs A1 L1 A2 L2 A3 L3 Hend. unfold extractDateOfService.
  assert (nonempty (label +:+ seps +:+ d1 +:+ "/" +:+ d2 +:+ "/" +:+ d3 +:+ post) = true) as ->.
  { destruct label; [discriminate | reflexivity]. }
  assert (M : match_at "Date of Service"
                (label +:+ seps +:+ d1 +:+ "/" +:+ d2 +:+ "/" +:+ d3 +:+ post) =
              Some (d1 +:+ "/" +:+ d2 +:+ "/" +:+ d3)).
  { unfold match_at. rewrite match_literal_ignore_case by by rewrite Hl.
    destruct seps as [|c seps]; [done|]. cbn in Hs. apply andb_true_iff in Hs as [Hc Hs].
    rewrite app_String, Hc, skip_separators_app; [by apply match_date_exact | done |].
    destruct d1 as [|x d1]; [cbn in L1; lia|]. cbn in A1. apply andb_true_iff in A1 as [Hx _].
    by rewrite app_String. }
  destruct (label +:+ seps +:+ d1 +:+ "/" +:+ d2 +:+ "/" +:+ d3 +:+ post);
    cbn [search]; by rewrite M.
Qed.

Lemma date_after_label_is_found_witness :
  extractDateOfService
    ("DATE OF SERVICE" +:+ ": " +:+ "09" +:+ "/" +:+ "16" +:+ "/" +:+ "25" +:+ " Surgeon") =
  "09" +:+ "/" +:+ "16" +:+ "/" +:+ "25".
Proof.
  apply (date_after_label_is_found "DATE OF SERVICE" ": " "09" "16" "25" " Surgeon");
    try reflexivity; try discriminate; try (cbn; lia). by right.
Defined.

(** ** Uploads *)

Lemma pretty_N_char_digit (x : N) : is_digit (pretty_N_char x) = true.
Proof. unfold pretty_N_char. repeat case_match; reflexivity. Qed.

Lemma pretty_N_go_digits (x : N) (s : string) :
  all_digits s = true → all_digits (pretty_N_go x s) = true.
Proof.
  revert s. induction (N.lt_wf_0 x) as [x _ IH]; intros s Hs.
  destruct (decide (x = 0)%N) as [-> | N0]; [by rewrite pretty_N_go_0|].
  rewrite pretty_N_go_step by lia. apply IH; [apply N.div_lt; lia|].
  cbn. by rewrite pretty_N_char_digit, Hs.
Qed.

(** A number prints as digits. *)
Lemma pretty_nat_digits (n : nat) : all_digits (pretty n) = true.
Proof.
  unfold pretty, pretty_nat, pretty, pretty_N. case_decide; [reflexivity|].
  by apply pretty_N_go_digits.
Qed.

Lemma digits_prefix_unique (d d' r r' : string) :
  all_digits d = true → all_digits d' = true →
  starts_with_digit r = false → starts_with_digit r' = false →
  d +:+ r = d' +:+ r' → d = d'.
Proof.
  revert d'. induction d as [|c d IH]; intros [|c' d'] Hd Hd' Hr Hr'; cbn in Hd, Hd'.
  - done.
  - rewrite app_empty_l, app_String. intros ->. cbn in Hr.
    apply andb_true_iff in Hd' as [Hc _]. congruence.
  - rewrite app_empty_l, app_String. intros <-. cbn in Hr'.
    apply andb_true_iff in Hd as [Hc _]. congruence.
  - rewrite !app_String. intros [= -> E].
    apply andb_true_iff in Hd as [_ Hd]. apply andb_true_iff in Hd' as [_ Hd'].
    f_equal. by apply IH.
Qed.

Lemma indexSuffix_inj (i j : nat) (r r' : string) :
  starts_with_digit r = false → starts_with_digit r' = false →
  indexSuffix (Some i) +:+ r = indexSuffix (Some j) +:+ r' → i = j.
Proof.
  intros Hr Hr'. unfold indexSuffix. rewrite !string_app_assoc, !app_String, !app_empty_l.
  intros [= E].
  apply digits_prefix_unique in E; [|apply pretty_nat_digits..|done|done].
  apply (inj pretty) in E. lia.
Qed.

Lemma S3_ENABLED_false (env : Env) :
  S3_ENABLED env = false ↔
  key_truthy (S3_ENDPOINT_URL env) = false ∨ key_truthy (S3_ACCESS_KEY env) = false ∨
  key_truthy (S3_SECRET_KEY env) = false.
Proof.
  unfold S3_ENABLED.
  destruct (key_truthy (S3_ENDPOINT_URL env)), (key_truthy (S3_ACCESS_KEY env)),
    (key_truthy (S3_SECRET_KEY env)); cbn; intuition congruence.
Qed.

Section UploadProperties.

Variable render_inherited : string → string.

Lemma omap_id_imap_nil {A} (f : nat → A → option string) (l : list A) :
  (∀ i x, f i x = None) → omap id (imap f l) = [].
Proof.
  revert f. induction l as [|x l IH]; intros f H; [done|].
  rewrite imap_cons. cbn. rewrite H. apply IH. intros i y. apply H.
Qed.

(** With the endpoint or one of the two credentials not set or empty,
    nothing is uploaded: every upload function gives no key, whatever
    the files. *)
Theorem uploads_need_the_configuration (env : Env) :
  key_truthy (S3_ENDPOINT_URL env) = false ∨ key_truthy (S3_ACCESS_KEY env) = false ∨
  key_truthy (S3_SECRET_KEY env) = false →
  (∀ sent documentKey reportType files,
     uploadMultipleFilesToS3 render_inherited env sent documentKey reportType files = []) ∧
  (∀ sent documentKey reportType rawData fileType filename index,
     uploadRawFileToS3 render_inherited env sent documentKey reportType
       rawData fileType filename index = None) ∧
  (∀ sent documentKey reportType summary,
     uploadSummaryToS3 env sent documentKey reportType summary = None).
Proof.
  intros H%S3_ENABLED_false.
  assert (U : ∀ sent key, uploadToS3 env sent key = None).
  { intros. unfold uploadToS3. by rewrite H. }
  assert (R : ∀ sent documentKey reportType rawData fileType filename index,
    uploadRawFileToS3 render_inherited env sent documentKey reportType
      rawData fileType filename index = None).
  { intros. unfold uploadRawFileToS3. rewrite U. by destruct (key_truthy rawData). }
  split; [|split; [exact R|]].
  - intros sent documentKey reportType [[|f files]|]; [done | | done].
    unfold uploadMultipleFilesToS3. apply omap_id_imap_nil. intros. apply R.
  - intros. unfold uploadSummaryToS3. rewrite U. by destruct summary.
Qed.

Lemma uploadMultipleFilesToS3_nonempty env sent documentKey reportType (files : list File) :
  files ≠ [] →
  uploadMultipleFilesToS3 render_inherited env sent documentKey reportType (Some files) =
    omap id (imap (λ index file,
                     uploadRawFileToS3 render_inherited env (sent index) documentKey reportType
                       (file_raw file) (file_type file) (file_filename file)
                       (if (1 <? length files)%nat then Some index else None))
                  files).
Proof. destruct files; [done | reflexivity]. Qed.

Lemma key_truthy_has_data (file : File) :
  key_truthy (file_raw file) = true ↔ has_data file.
Proof.
  unfold has_data. destruct (file_raw file) as [[|c d]|]; cbn; split.
  - done.
  - by intros (? & [= <-] & ?).
  - intros _. by eexists.
  - done.
  - done.
  - by intros (? & ? & _).
Qed.

Lemma extension_as_expected (file : File) :
  render render_inherited
    (get_or [("pdf", ".pdf");
             ("image", if key_truthy (file_filename file)
                       then getExtension (default EmptyString (file_filename file))
                       else ".jpg");
             ("text", ".txt")]
            (property_name (file_type file)) ".bin") =
  expected_extension render_inherited file.
Proof.
  unfold expected_extension, get_or.
  destruct file as [raw [t|] fn]; cbn [file_type file_filename property_name own_property];
    [|reflexivity].
  destruct (String.eqb_spec "pdf" t) as [<- | N1]; [reflexivity|].
  rewrite decide_False by congruence.
  destruct (String.eqb_spec "image" t) as [<- | N2].
  { rewrite decide_True by done. by destruct fn as [[|c name]|]. }
  rewrite decide_False by congruence.
  destruct (String.eqb_spec "text" t) as [<- | N3]; [reflexivity|].
  rewrite decide_False by congruence.
  unfold bool_decide. by destruct (decide_rel elem_of t Object_prototype_names).
Qed.

Lemma key_as_expected (documentKey reportType : string) (files : list File) (index : nat)
    (file : File) :
  S3_FOLDER +:+ "/" +:+
    raw_file_key render_inherited documentKey reportType (file_type file) (file_filename file)
      (if (1 <? length files)%nat then Some index else None) =
  expected_key render_inherited documentKey reportType (length files) index file.
Proof.
  unfold raw_file_key, expected_key, position_suffix. rewrite extension_as_expected.
  destruct (1 <? length files)%nat; cbn [indexSuffix]; by rewrite ?Nat.add_1_r.
Qed.

(** The keys [uploadMultipleFilesToS3] gives are exactly those of the
    files that carry data and whose PUT went through, the key of a
    file being [medical-coder/<documentKey>/<reportType>_document],
    then [_] and the position of the file counted from 1 when there
    are several files, then the extension of the file.  A file without
    data, or whose PUT failed, gives no key, so there are never more
    keys than files. *)
Theorem uploaded_keys (env : Env) (sent : nat → bool) (documentKey reportType : string)
    (files : list File) (key : string) :
  (key ∈ uploadMultipleFilesToS3 render_inherited env sent documentKey reportType (Some files) ↔
   ∃ index file,
     files !! index = Some file ∧
     S3_ENABLED env = true ∧ has_data file ∧ sent index = true ∧
     key = expected_key render_inherited documentKey reportType (length files) index file) ∧
  (length (uploadMultipleFilesToS3 render_inherited env sent documentKey reportType (Some files))
     ≤ length files)%nat.
Proof.
  assert (L : ∀ {A} (l : list (option A)), (length (omap id l) ≤ length l)%nat).
  { intros A l. induction l as [|[a|] l IH]; cbn; lia. }
  destruct (decide (files = [])) as [-> | Hne]; [split; [|done]|].
  { split; [by intros ?%elem_of_nil | by intros (i & f & ? & _)]. }
  rewrite uploadMultipleFilesToS3_nonempty by done.
  split.
  - rewrite list_elem_of_omap. split.
    + intros (o & Ho & E). cbn in E. subst o.
      apply list_elem_of_lookup in Ho as (i & Hi).
      rewrite list_lookup_imap in Hi.
      destruct (files !! i) as [file|] eqn:Hf; [|done].
      cbn [fmap option_fmap option_map] in Hi. injection Hi as Hi.
      exists i, file. split; [done|].
      unfold uploadRawFileToS3, uploadToS3 in Hi. rewrite key_as_expected in Hi.
      destruct (key_truthy (file_raw file)) eqn:Hr; [|done].
      apply key_truthy_has_data in Hr.
      destruct (S3_ENABLED env); [|done]. cbn [negb] in Hi.
      destruct (sent i); [|done]. by injection Hi as <-.
    + intros (i & file & Hf & He & Hr%key_truthy_has_data & Hs & ->).
      eexists. split; [|reflexivity].
      apply list_elem_of_lookup. exists i. rewrite list_lookup_imap, Hf.
      cbn [fmap option_fmap option_map]. f_equal.
      unfold uploadRawFileToS3, uploadToS3. rewrite key_as_expected, Hr, He, Hs.
      reflexivity.
  - etrans; [apply L|]. by rewrite length_imap.
Qed.

End UploadProperties.

Section UploadedKeysDistinct.

Variable render_inherited : string → string.

Lemma NoDup_omap_imap {A} (f : nat → A → option string) (l : list A) :
  (∀ i j x y b, l !! i = Some x → l !! j = Some y →
                f i x = Some b → f j y = Some b → i = j) →
  NoDup (omap id (imap f l)).
Proof.
  revert f. induction l as [|x l IH]; intros f H; [constructor|].
  rewrite imap_cons.
  assert (Hrest : NoDup (omap id (imap (f ∘ S) l))).
  { apply IH. intros i j a b k Hi Hj Hfi Hfj.
    assert (S i = S j) by (by apply (H (S i) (S j) a b k)). lia. }
  change (omap id (f 0 x :: imap (f ∘ S) l))
    with (match f 0 x with
          | Some b => b :: omap id (imap (f ∘ S) l)
          | None => omap id (imap (f ∘ S) l)
          end).
  destruct (f 0 x) as [b|] eqn:E; [|done].
  constructor; [|done]. intros (o & Ho & Eo)%list_elem_of_omap. cbn in Eo. subst o.
  apply list_elem_of_lookup in Ho as (j & Hj). rewrite list_lookup_imap in Hj.
  destruct (l !! j) as [y|] eqn:Hy; [|done]. cbn in Hj. injection Hj as Hj.
  assert (0 = S j) by (by apply (H 0 (S j) x y b)). lia.
Qed.

Lemma extension_starts_with_no_digit (fileType filename : option string) :
  property_name fileType ∉ Object_prototype_names →
  starts_with_digit
    (render render_inherited
       (get_or [("pdf", ".pdf");
                ("image", if key_truthy filename
                          then getExtension (default EmptyString filename) else ".jpg");
                ("text", ".txt")]
               (property_name fileType) ".bin")) = false.
Proof.
  intros Hn. unfold get_or. cbn [own_property].
  destruct (String.eqb "pdf" (property_name fileType)); [reflexivity|].
  destruct (String.eqb "image" (property_name fileType)).
  { destruct (key_truthy filename); reflexivity. }
  destruct (String.eqb "text" (property_name fileType)); [reflexivity|].
  by rewrite bool_decide_eq_false_2.
Qed.

(** No two files of one upload share a key: when no file type is a
    name inherited from [Object.prototype], the keys
    [uploadMultipleFilesToS3] gives are pairwise distinct, so that no
    document of a report overwrites another. *)
Theorem uploaded_keys_distinct (env : Env) (sent : nat → bool) (documentKey reportType : string)
    (files : list File) :
  Forall (λ file, property_name (file_type file) ∉ Object_prototype_names) files →
  NoDup (uploadMultipleFilesToS3 render_inherited env sent documentKey reportType (Some files)).
Proof.
  intros Hfiles.
  destruct files as [|f0 [|f1 files]].
  - constructor.
  - cbn. destruct (uploadRawFileToS3 _ _ _ _ _ _ _ _ _); cbn;
      [apply NoDup_singleton | constructor].
  - rewrite (uploadMultipleFilesToS3_nonempty render_inherited) by done.
    apply NoDup_omap_imap. intros i j x y b Hi Hj Hx Hy.
    assert ((1 <? length (f0 :: f1 :: files))%nat = true) as E by reflexivity.
    rewrite E in Hx, Hy. clear E.
    unfold uploadRawFileToS3, uploadToS3 in Hx, Hy.
    destruct (key_truthy (file_raw x)); [|done]. destruct (key_truthy (file_raw y)); [|done].
    destruct (S3_ENABLED env); [|done]. cbn [negb] in Hx, Hy.
    destruct (sent i); [|done]. destruct (sent j); [|done].
    injection Hx as <-. injection Hy as Hy. unfold raw_file_key in Hy.
    do 5 apply (inj (String.app _)) in Hy.
    rewrite Forall_forall in Hfiles.
    apply (indexSuffix_inj j i) in Hy; [done | |];
      apply extension_starts_with_no_digit, Hfiles; by eapply list_elem_of_lookup_2.
Qed.

End UploadedKeysDistinct.

Lemma uploads_need_the_configuration_witness :
  uploadMultipleFilesToS3 (λ name, name)
    (mkEnv (Some "https://s3.example") None None (Some "secret")) (λ _, true) "doc-1" "hp"
    (Some [mkFile (Some "JVBERi0=") (Some "pdf") None]) = [].
Proof.
  apply (uploads_need_the_configuration (λ name, name)
           (mkEnv (Some "https://s3.example") None None (Some "secret"))).
  right; left; reflexivity.
Defined.

Lemma uploaded_keys_witness :
  "medical-coder/doc-1/hp_document_3.pdf" ∈
    uploadMultipleFilesToS3 (λ name, name)
      (mkEnv (Some "https://s3.example") None (Some "access") (Some "secret")) (λ _, true)
      "doc-1" "hp"
      (Some [mkFile (Some "/9j/4A==") (Some "image") (Some "page.JPG");
             mkFile None (Some "image") (Some "blank.png");
             mkFile (Some "JVBERi0=") (Some "pdf") None]).
Proof.
  apply (proj1 (uploaded_keys (λ name, name)
           (mkEnv (Some "https://s3.example") None (Some "access") (Some "secret")) (λ _, true)
           "doc-1" "hp"
           [mkFile (Some "/9j/4A==") (Some "image") (Some "page.JPG");
            mkFile None (Some "image") (Some "blank.png");
            mkFile (Some "JVBERi0=") (Some "pdf") None]
           "medical-coder/doc-1/hp_document_3.pdf")).
  exists 2%nat, (mkFile (Some "JVBERi0=") (Some "pdf") None).
  split; [reflexivity|]. split; [reflexivity|].
  split; [by exists "JVBERi0="|]. split; reflexivity.
Defined.

Example expected_keys_of_sample_files :
  expected_key (λ name, name) "doc-1" "hp" 3 0 (mkFile (Some "/9j/4A==") (Some "image") (Some "page.JPG")) =
    "medical-coder/doc-1/hp_document_1.jpg" ∧
  expected_key (λ name, name) "doc-1" "op" 1 0 (mkFile (Some "aGVsbG8=") (Some "text") None) =
    "medical-coder/doc-1/op_document.txt" ∧
  expected_key (λ name, name) "doc-1" "op" 2 1 (mkFile (Some "AAAA") None None) =
    "medical-coder/doc-1/op_document_2.bin" ∧
  expected_key (λ name, name) "doc-1" "op" 2 1 (mkFile (Some "AAAA") (Some "image") None) =
    "medical-coder/doc-1/op_document_2.jpg".
Proof. repeat split; vm_compute; reflexivity. Qed.

Lemma uploaded_keys_distinct_witness :
  NoDup (uploadMultipleFilesToS3 (λ name, name)
    (mkEnv (Some "https://s3.example") None (Some "access") (Some "secret")) (λ _, true)
    "doc-1" "hp"
    (Some [mkFile (Some "/9j/4A==") (Some "image") (Some "page.JPG");
           mkFile (Some "/9j/4A==") (Some "image") (Some "page.JPG")])).
Proof.
  apply (uploaded_keys_distinct (λ name, name)).
  apply (bool_decide_unpack _). vm_compute. exact I.
Defined.

Example two_pages_uploaded :
  uploadMultipleFilesToS3 (λ name, name)
    (mkEnv (Some "https://s3.example") None (Some "access") (Some "secret")) (λ _, true)
    "doc-1" "hp"
    (Some [mkFile (Some "/9j/4A==") (Some "image") (Some "page.JPG");
           mkFile None (Some "image") (Some "blank.png");
           mkFile (Some "JVBERi0=") (Some "pdf") None]) =
  ["medical-coder/doc-1/hp_document_1.jpg"; "medical-coder/doc-1/hp_document_3.pdf"].
Proof. vm_compute. reflexivity. Qed.

Example one_page_uploaded :
  uploadMultipleFilesToS3 (λ name, name)
    (mkEnv (Some "https://s3.example") None (Some "access") (Some "secret")) (λ _, true)
    "doc-1" "op" (Some [mkFile (Some "text of the report") (Some "text") None]) =
  ["medical-coder/doc-1/op_document.txt"].
Proof. vm_compute. reflexivity. Qed.

Example date_of_service_before_dos :
  extractDateOfService "DOS: 1/2/33 and Date of Service: 4/5/66" = "4/5/66".
Proof. reflexivity. Qed.

Example dos_needs_a_full_date :
  extractDateOfService "DOS 123/4/55, Dos:1/2/3, dos: 01/02/20031" = "01/02/2003".
Proof. reflexivity. Qed.

Example extension_of_names :
  (getExtension "scan.JPG", getExtension "README", getExtension "a.tar.GZ", getExtension "x.") =
  (".jpg", ".readme", ".gz", ".").
Proof. reflexivity. Qed.

Example mime_of_names :
  (getMimeType "a.b.PNG", getMimeType "noext", getMimeType "x.constructor") =
  (OwnString "image/png", OwnString "application/octet-stream", Inherited "constructor").
Proof. vm_compute. reflexivity. Qed.

(** ** The percentage of results that list no code twice *)

Lemma percentage_is_percentage_of (st : Locals) :
  percentage (result_of st) = percentage_of (totalFields st) (correctFields st).
Proof. reflexivity. Qed.

Lemma counters_ordered (ai user : CodingResult.t) :
  NoDup (CodingResult.sdx ai) → NoDup (CodingResult.cpt ai) →
  (correctFields (after_cpt (CodingResult.to_object ai) (CodingResult.to_object user)) ≤
   totalFields (after_cpt (CodingResult.to_object ai) (CodingResult.to_object user)))%nat.
Proof.
  intros Hs Hc. rewrite correctFields_sum, totalFields_sum, !matches_length_NoDup by done.
  pose proof (scalar_numerator_le (CodingResult.admit_dx ai) (CodingResult.admit_dx user)).
  pose proof (scalar_numerator_le (CodingResult.pdx ai) (CodingResult.pdx user)).
  pose proof (scalar_numerator_le (CodingResult.modifier ai) (CodingResult.modifier user)).
  pose proof (intersection_le_union (CodingResult.sdx ai) (CodingResult.sdx user)).
  pose proof (intersection_le_union (CodingResult.cpt ai) (CodingResult.cpt user)).
  lia.
Qed.

Lemma counters_equal_on_self (r : CodingResult.t) :
  NoDup (CodingResult.sdx r) → NoDup (CodingResult.cpt r) →
  correctFields (after_cpt (CodingResult.to_object r) (CodingResult.to_object r)) =
  totalFields (after_cpt (CodingResult.to_object r) (CodingResult.to_object r)).
Proof.
  intros Hs Hc. rewrite correctFields_sum, totalFields_sum, !matches_length_NoDup by done.
  by rewrite !scalar_numerator_self, !intersection_self.
Qed.

Lemma check_range_300 : check_range 300 = true.
Proof. vm_compute. reflexivity. Qed.

Lemma check_equal_5000 : check_equal 5000 = true.
Proof. vm_compute. reflexivity. Qed.

Lemma check_range_sound (n total correct : nat) :
  check_range n = true → (correct ≤ total)%nat → (total ≤ n)%nat →
  in_range (percentage_of total correct) = true.
Proof.
  unfold check_range. intros H Hc Ht.
  rewrite forallb_forall in H. specialize (H total).
  rewrite forallb_forall in H. apply H; apply in_seq; lia.
Qed.

Lemma check_equal_sound (n total : nat) :
  check_equal n = true → (total ≤ n)%nat → percentage_of total total = 100%float.
Proof.
  unfold check_equal. intros H Ht. rewrite forallb_forall in H.
  apply FloatAxioms.Leibniz.eqb_spec, H, in_seq. lia.
Qed.

(** A pair of coding results whose AI sequences list no code twice and
    that has at most 300 scored fields gets a percentage between 0 and
    100. *)
Theorem percentage_between_0_and_100 (ai user : CodingResult.t) :
  NoDup (CodingResult.sdx ai) → NoDup (CodingResult.cpt ai) →
  (totalFields (after_cpt (CodingResult.to_object ai) (CodingResult.to_object user)) ≤ 300)%nat →
  let p := percentage (calculateAccuracy_object (CodingResult.to_object ai)
                                               (CodingResult.to_object user)) in
  (0 <=? p)%float = true ∧ (p <=? 100)%float = true.
Proof.
  intros Hs Hc Ht p. subst p. unfold calculateAccuracy_object.
  rewrite percentage_is_percentage_of.
  pose proof (check_range_sound 300 _ _ check_range_300 (counters_ordered ai user Hs Hc) Ht) as H.
  unfold in_range in H. by apply andb_true_iff in H.
Qed.

Lemma percentage_between_0_and_100_witness :
  (percentage (calculateAccuracy_object
     (CodingResult.to_object (CodingResult.mk "K21.9" "" ["I10"; "E78.5"] [] ""))
     (CodingResult.to_object (CodingResult.mk "K44.9" "" ["E78.5"] [] ""))) <=? 100)%float = true.
Proof.
  apply (percentage_between_0_and_100
           (CodingResult.mk "K21.9" "" ["I10"; "E78.5"] [] "")
           (CodingResult.mk "K44.9" "" ["E78.5"] [] "")
           NoDup_two_codes (NoDup_nil_2 (A:=string))).
  vm_compute. lia.
Defined.

(** A coding result that lists no code twice and has at most 5000
    scored fields, compared with itself, gets the percentage 100. *)
Theorem self_comparison_scores_100 (r : CodingResult.t) :
  NoDup (CodingResult.sdx r) → NoDup (CodingResult.cpt r) →
  (totalFields (after_cpt (CodingResult.to_object r) (CodingResult.to_object r)) ≤ 5000)%nat →
  percentage (calculateAccuracy_object (CodingResult.to_object r) (CodingResult.to_object r)) =
    100%float.
Proof.
  intros Hs Hc Ht. unfold calculateAccuracy_object.
  rewrite percentage_is_percentage_of, counters_equal_on_self by done.
  by apply (check_equal_sound 5000 _ check_equal_5000).
Qed.

Lemma self_comparison_scores_100_witness :
  percentage (calculateAccuracy_object
    (CodingResult.to_object (CodingResult.mk "K21.9" "" ["I10"; "E78.5"] [] ""))
    (CodingResult.to_object (CodingResult.mk "K21.9" "" ["I10"; "E78.5"] [] ""))) = 100%float.
Proof.
  apply (self_comparison_scores_100 (CodingResult.mk "K21.9" "" ["I10"; "E78.5"] [] "")
           NoDup_two_codes (NoDup_nil_2 (A:=string))).
  vm_compute. lia.
Defined.

(** ** The percentage as a number of hundredths *)

Lemma check_nearest_200 : check_nearest 200 = true.
Proof. vm_compute. reflexivity. Qed.

Lemma check_nearest_sound (n total correct : nat) :
  check_nearest n = true → (0 < total ≤ n)%nat → (correct ≤ n)%nat →
  ∃ k, percentage_of total correct = of_hundredths k ∧ nearest_hundredths total correct k.
Proof.
  unfold check_nearest. intros H Ht Hc.
  rewrite forallb_forall in H. specialize (H total).
  rewrite forallb_forall in H.
  assert (In total (seq 1 n)) as Hin by (apply in_seq; lia).
  assert (In correct (seq 0 (S n))) as Hin' by (apply in_seq; lia).
  specialize (H Hin correct Hin'). cbv zeta in H.
  apply orb_true_iff in H as [H | H]; unfold is_hundredths in H;
    apply andb_true_iff in H as [E N];
    apply FloatAxioms.Leibniz.eqb_spec in E; apply Z.leb_le in N; eauto.
Qed.

Lemma tie_counters :
  totalFields (after_cpt
     (CodingResult.to_object (CodingResult.mk "" "" (sample_codes 160) [] ""))
     (CodingResult.to_object (CodingResult.mk "" "" (sample_codes 23) [] ""))) = 160 ∧
  correctFields (after_cpt
     (CodingResult.to_object (CodingResult.mk "" "" (sample_codes 160) [] ""))
     (CodingResult.to_object (CodingResult.mk "" "" (sample_codes 23) [] ""))) = 23.
Proof. split; vm_compute; reflexivity. Qed.




Example one_third_is_3333_hundredths :
  percentage_of 3 1 = of_hundredths 3333 ∧ percentage_of 3 2 = of_hundredths 6667 ∧
  percentage_of 160 1 = of_hundredths 63 ∧ percentage_of 160 23 = of_hundredths 1437.
Proof. repeat split; reflexivity. Qed.
